(** * prt_phasecurve: the phase-curve integration of [phase_curve.py]

    A shallow embedding of [wrap_phase_curve] and [calc_phase_curve].

    Numbers.  The source computes with IEEE doubles.  The embedding reads
    them as exact numbers: the arithmetic and the comparisons the code
    performs are taken from an interface [Num], which has two instances,
    the rationals in lowest terms, on which the grid, the lookup and the
    mu-band step run, and the real numbers, on which the rotation and the
    flux are defined.

    Exceptions.  A Python exception is a value [inl e] of [result];
    [inr v] is a normal return. *)

From Stdlib Require Import List Bool Arith Lia QArith Qreduction Reals Lra.
Import ListNotations.

(** ** Exceptions *)

Inductive exn : Type :=
| IndexError   (* raised by the rank checks and by any index out of range *)
| ValueError.  (* raised by numpy on operands that cannot be broadcast *)

Definition result (A : Type) : Type := (exn + A)%type.

Definition ret {A} (a : A) : result A := inr a.
Definition raise {A} (e : exn) : result A := inl e.
Definition bind {A B} (m : result A) (k : A -> result B) : result B :=
  match m with
  | inl e => inl e
  | inr a => k a
  end.

Notation "x <- m ;; k" := (bind m (fun x => k))
  (at level 61, m at next level, right associativity).

(** [l[i]] for a Python list and a non-negative index. *)
Definition index {A} (l : list A) (i : nat) : result A :=
  match nth_error l i with
  | Some a => ret a
  | None => raise IndexError
  end.

(** A list comprehension whose body may raise: the first exception wins. *)
Fixpoint mapM {A B} (f : A -> result B) (l : list A) : result (list B) :=
  match l with
  | [] => ret []
  | a :: l' => b <- f a ;; bs <- mapM f l' ;; ret (b :: bs)
  end.

(** A [for] loop over [l] threading the state [s]. *)
Fixpoint foldM {A S} (f : S -> A -> result S) (l : list A) (s : S) : result S :=
  match l with
  | [] => ret s
  | a :: l' => s' <- f s a ;; foldM f l' s'
  end.

(** ** Numbers *)

Class Num (A : Type) : Type := {
  of_nat : nat -> A;          (* the literal [n.] *)
  nadd : A -> A -> A;
  nsub : A -> A -> A;
  nmul : A -> A -> A;
  ndiv : A -> A -> A;
  nopp : A -> A;
  leb : A -> A -> bool;       (* [a <= b] *)
  ltb : A -> A -> bool        (* [a < b]  *)
}.

Declare Scope num_scope.
Delimit Scope num_scope with num.
Infix "+" := nadd : num_scope.
Infix "-" := nsub : num_scope.
Infix "*" := nmul : num_scope.
Infix "/" := ndiv : num_scope.
Notation "- x" := (nopp x) : num_scope.
Infix "<=?" := leb : num_scope.
Infix "<?" := ltb : num_scope.
(** Python's [a > b]. *)
Notation "a >? b" := (ltb b a) (at level 70) : num_scope.

(** What the proofs need of the order: [>] is the negation of [<=]. *)
Class NumOrder (A : Type) `{Num A} : Prop := {
  ltb_negb_leb : forall a b : A, ltb b a = negb (leb a b)
}.

Arguments NumOrder A {_}.

(** Rationals, kept in lowest terms so that equal values are equal terms. *)
Definition Qltb (a b : Q) : bool :=
  match Qcompare a b with
  | Lt => true
  | _ => false
  end.

#[export] Instance Num_Q : Num Q := {
  of_nat n := inject_Z (Z.of_nat n);
  nadd a b := Qred (Qplus a b);
  nsub a b := Qred (Qminus a b);
  nmul a b := Qred (Qmult a b);
  ndiv a b := Qred (Qdiv a b);
  nopp a := Qred (Qopp a);
  leb := Qle_bool;
  ltb := Qltb
}.

Definition Rleb (a b : R) : bool := if Rle_dec a b then true else false.
Definition Rltb (a b : R) : bool := if Rlt_dec a b then true else false.

#[export] Instance Num_R : Num R := {
  of_nat := INR;
  nadd := Rplus;
  nsub := Rminus;
  nmul := Rmult;
  ndiv := Rdiv;
  nopp := Ropp;
  leb := Rleb;
  ltb := Rltb
}.

(** ** Arrays of rank one *)

Section Vectors.
Context {A : Type} `{Num A}.
Local Open Scope num_scope.

(** Elementwise operation on two arrays of the same length. *)
Fixpoint map2 (f : A -> A -> A) (a b : list A) : list A :=
  match a, b with
  | x :: a', y :: b' => f x y :: map2 f a' b'
  | _, _ => []
  end.

Definition vadd : list A -> list A -> list A := map2 nadd.
Definition vsub : list A -> list A -> list A := map2 nsub.
(** array [*] scalar, array [/] scalar *)
Definition vscale (v : list A) (c : A) : list A := map (fun x => x * c) v.
Definition vdiv (v : list A) (c : A) : list A := map (fun x => x / c) v.

(** [np.zeros(n)] *)
Definition zeros (n : nat) : list A := repeat (of_nat 0) n.

(** [np.linspace(start, stop, num)]: [start + i * step] for [i < num],
    with [step = (stop - start) / (num - 1)]. *)
Definition linspace (start stop : A) (num : nat) : list A :=
  map (fun i => start + of_nat i * ((stop - start) / of_nat (num - 1)))
      (seq 0 num).

(** [np.diff(a)]: [a[1:] - a[:-1]] *)
Definition diff (a : list A) : list A := vsub (tl a) (removelast a).

(** [(a[1:] + a[:-1]) / 2.] *)
Definition midpoints (a : list A) : list A :=
  vdiv (vadd (tl a) (removelast a)) (of_nat 2).

(** *** The mu half of the quadrature grid (lines 85-87) *)

Definition mu_p_grid_bord : list A := rev (linspace (of_nat 0) (of_nat 1) 11).
Definition mu_p_mean : list A := midpoints mu_p_grid_bord.
Definition del_mu_p : list A := map nopp (diff mu_p_grid_bord).

(** *** The bracket lookup (lines 93-107)

    [do_intp] and [i_intps] are the two Python lists, grown by [append]
    inside the double loop; [lookup_body] is the body of the inner
    loop for the quadrature centre [m = mu_p_mean[imu]] and index [jmu]. *)

Definition tables : Type := (list bool * list nat)%type.

Definition do_intp (t : tables) : list bool := fst t.
Definition i_intps (t : tables) : list nat := snd t.

Definition append (t : tables) (b : bool) (i : nat) : tables :=
  (fst t ++ [b], snd t ++ [i]).

Definition lookup_body (mus : list A) (m : A) (t : tables) (jmu : nat) : tables :=
  if m <=? nth 0 mus (of_nat 0) then
    append t false 0
  else if m >? nth (length mus - 1) mus (of_nat 0) then
    append t false (length mus - 1)
  else if (m >? nth jmu mus (of_nat 0)) && (m <=? nth (jmu + 1) mus (of_nat 0)) then
    append t true jmu
  else t.

Definition lookup_from (mus : list A) (centres : list A) (t : tables) : tables :=
  fold_left
    (fun t imu =>
       fold_left (lookup_body mus (nth imu centres (of_nat 0)))
                 (seq 0 (length mus - 1)) t)
    (seq 0 (length centres)) t.

Definition lookup (mus : list A) : tables := lookup_from mus mu_p_mean ([], []).

(** *** The interpolant

    [mu_rad_bas] is an instance of scipy's [RBFInterpolator]: called on
    one direction it returns an array of shape [(1, nlambda, nmu)], the
    shape being that of the samples it was built from.  Every call in
    the source passes exactly one direction and reads row [0] of the
    answer, so [eval f p w k] stands for [mu_rad_bas([p])[0, w, k]]. *)

Record interpolator : Type := {
  nlambda : nat;
  nmu : nat;
  eval : A * A * A -> nat -> nat -> A
}.

(** [interp[0, :, k]] *)
Definition column (f : interpolator) (interp : nat -> nat -> A) (k : nat)
  : result (list A) :=
  if Nat.ltb k (nmu f)
  then ret (map (fun w => interp w k) (seq 0 (nlambda f)))
  else raise IndexError.

(** *** The mu-band interpolation of one cell (lines 127-133) *)

Definition I_use (mus : list A) (t : tables) (f : interpolator)
           (interp : nat -> nat -> A) (itheta : nat) : result (list A) :=
  b <- index (do_intp t) itheta ;;
  if b : bool then
    i <- index (i_intps t) itheta ;;
    I_small <- column f interp i ;;
    I_large <- column f interp (i + 1) ;;
    hi <- index mus (i + 1) ;;
    lo <- index mus i ;;
    ret (vadd I_small
              (vscale (vdiv (vsub I_large I_small) (hi - lo))
                      (nth itheta mu_p_mean (of_nat 0) - lo)))
  else
    i <- index (i_intps t) itheta ;;
    column f interp i.

End Vectors.

Arguments interpolator A : clear implicits.

(** ** The phase-dependent part, over the reals *)

Local Open Scope R_scope.

(** *** The azimuth half of the quadrature grid (lines 89-91) *)

Definition phi_p_grid_bord : list R := linspace 0 (2 * PI) 11.
Definition phi_p_mean : list R := midpoints phi_p_grid_bord.
Definition del_phi_p : list R := diff phi_p_grid_bord.

(** *** Matrices as lists of rows; [dot] is [np.matrix.dot] *)

Definition matrix : Type := list (list R).

Fixpoint dotprod (a b : list R) : R :=
  match a, b with
  | x :: a', y :: b' => x * y + dotprod a' b'
  | _, _ => 0
  end.

Definition col (N : matrix) (j : nat) : list R := map (fun row => nth j row 0) N.

Definition dot (M N : matrix) : matrix :=
  map (fun row => map (fun j => dotprod row (col N j)) (seq 0 (length (hd [] N)))) M.

Definition transpose (M : matrix) : matrix :=
  map (col M) (seq 0 (length (hd [] M))).

Definition entry (M : matrix) (i j : nat) : R := nth j (nth i M []) 0.

(** *** The rotation (lines 109-111) *)

Definition realign : matrix := [[0; 0; 1]; [0; 1; 0]; [-1; 0; 0]].

Definition rot_x (rot : R) : matrix :=
  [[1; 0; 0]; [0; cos rot; - sin rot]; [0; sin rot; cos rot]].

Definition rot_angle (phase : R) : R := - phase * 2 * PI.

Definition rotation (phase : R) : matrix := dot realign (rot_x (rot_angle phase)).

(** *** One quadrature cell (lines 118-136)

    [direction] is the column [[x_p], [y_p], [z_p]] of line 122 and
    [query_point] the rotated [point] of line 124. *)

Definition direction (iphi itheta : nat) : matrix :=
  let m := nth itheta mu_p_mean 0 in
  let x_p := cos (nth iphi phi_p_mean 0) * sqrt (1 - m ^ 2) in
  let y_p := sin (nth iphi phi_p_mean 0) * sqrt (1 - m ^ 2) in
  let z_p := m in
  [[x_p]; [y_p]; [z_p]].

Definition query_point (M : matrix) (iphi itheta : nat) : R * R * R :=
  let Rm := dot M (direction iphi itheta) in
  (entry Rm 0 0, entry Rm 1 0, entry Rm 2 0).

Definition cell (M : matrix) (mus : list R) (t : tables) (f : interpolator R)
           (iphi : nat) (flux_arr : list R) (itheta : nat) : result (list R) :=
  let interp := eval f (query_point M iphi itheta) in
  I <- I_use mus t f interp itheta ;;
  let dF := vscale (vscale (vscale I (nth itheta mu_p_mean 0))
                           (nth itheta del_mu_p 0))
                   (nth iphi del_phi_p 0) in
  ret (vadd flux_arr dF).

(** *** [calc_phase_curve] (lines 66-138)

    The lookup lists and the rotation are computed once, [Nlambda] is read
    off a query at the origin (line 113), and the two loops of lines
    116-117 add the cells to [flux_arr]. *)

Definition calc_phase_curve (phase : R) (mus : list R) (mu_rad_bas : interpolator R)
  : result (list R) :=
  let t := lookup mus in
  let M := rotation phase in
  let Nlambda := nlambda mu_rad_bas in
  foldM (fun flux_arr iphi =>
           foldM (cell M mus t mu_rad_bas iphi)
                 (seq 0 (length (mu_p_mean (A:=R)))) flux_arr)
        (seq 0 (length phi_p_mean))
        (zeros Nlambda).

(** ** The entry point *)

(** A numpy array: its shape and its entries in row-major order. *)
Record ndarray : Type := {
  shape : list nat;
  data : list R
}.

Definition rank (a : ndarray) : nat := length (shape a).

(** Lines 29-34 and 36-41: a grid of rank 2 is flattened, rank 1 is kept. *)
Definition format_grid (a : ndarray) : result ndarray :=
  match shape a with
  | [s0; s1] => ret {| shape := [(s0 * s1)%nat]; data := data a |}
  | [_] => ret a
  | _ => raise IndexError
  end.

(** Lines 43-48: the same for the intensity, of rank 4 or 3. *)
Definition format_intensity (a : ndarray) : result ndarray :=
  match shape a with
  | [s0; s1; s2; s3] => ret {| shape := [(s0 * s1)%nat; s2; s3]; data := data a |}
  | [_; _; _] => ret a
  | _ => raise IndexError
  end.

(** The product of two arrays of rank one under numpy's broadcasting:
    equal lengths, or one of the two of length one. *)
Definition bmul (a b : list R) : result (list R) :=
  if Nat.eqb (length a) (length b) then ret (map2 Rmult a b)
  else if Nat.eqb (length a) 1 then ret (map (Rmult (hd 0 a)) b)
  else if Nat.eqb (length b) 1 then ret (map (fun v => v * hd 0 b) a)
  else raise ValueError.

(** [np.array([x, y, z]).T]: the rows [(x_i, y_i, z_i)]; numpy refuses
    three arrays that differ in length. *)
Fixpoint zip3 (x y z : list R) : list (R * R * R) :=
  match x, y, z with
  | a :: x', b :: y', c :: z' => (a, b, c) :: zip3 x' y' z'
  | _, _, _ => []
  end.

Definition stack3 (x y z : list R) : result (list (R * R * R)) :=
  if Nat.eqb (length x) (length y) && Nat.eqb (length y) (length z)
  then ret (zip3 x y z)
  else raise ValueError.

(** Lines 51-55. *)
Definition cartesian (_lon _lat : ndarray) : result (list (R * R * R)) :=
  let phi := map (fun v => v / 180 * PI) (data _lon) in
  let theta := map (fun v => (v + 90) / 180 * PI) (data _lat) in
  x <- bmul (map cos phi) (map sin theta) ;;
  y <- bmul (map sin phi) (map sin theta) ;;
  let z := map cos theta in
  stack3 x y z.

Section Driver.

(** scipy's constructor [RBFInterpolator(y, d, smoothing=s)], which is
    not part of the repository: it either raises or returns the
    interpolant of the samples. *)
Variable RBFInterpolator :
  list (R * R * R) -> ndarray -> R -> result (interpolator R).

(** [wrap_phase_curve] (lines 5-63): the input is formatted and the
    interpolant built (lines 28-58), then the comprehension of line 61
    runs [calc_phase_curve] once per phase. *)
Definition build_interpolator (lon lat intensity : ndarray)
  : result (interpolator R) :=
  _lon <- format_grid lon ;;
  _lat <- format_grid lat ;;
  _intensity <- format_intensity intensity ;;
  points <- cartesian _lon _lat ;;
  RBFInterpolator points _intensity (1 / 10).

Definition wrap_phase_curve (phases : list R) (lon lat : ndarray)
           (mus : list R) (intensity : ndarray) : result (list (list R)) :=
  mu_rad_bas <- build_interpolator lon lat intensity ;;
  mapM (fun phase => calc_phase_curve phase mus mu_rad_bas) phases.

End Driver.

(** A stand-in for the constructor, used where a run of the entry point is
    exhibited on concrete arrays: it accepts [M >= 1] directions with an
    intensity of shape [(M, N, D)], refuses anything else, and answers
    every query with the intensity of the first sample. *)
Definition first_sample_interpolator
           (points : list (R * R * R)) (d : ndarray) (smoothing : R)
  : result (interpolator R) :=
  match shape d with
  | [M; N; D] =>
      if Nat.eqb (length points) M && Nat.leb 1 M
         && Nat.eqb (length (data d)) (M * N * D)
      then ret {| nlambda := N; nmu := D;
                  eval := fun _ w k => nth (w * D + k) (data d) 0 |}
      else raise ValueError
  | _ => raise ValueError
  end.

(** ** Specification-level vocabulary *)

Section LookupSpec.
Context {A : Type} `{Num A}.
Local Open Scope num_scope.

(** What one pass of the inner loop appends for the centre [m]. *)
Definition entry_at (mus : list A) (m : A) (jmu : nat) : list (bool * nat) :=
  if m <=? nth 0 mus (of_nat 0) then [(false, 0%nat)]
  else if m >? nth (length mus - 1) mus (of_nat 0) then [(false, (length mus - 1)%nat)]
  else if (m >? nth jmu mus (of_nat 0)) && (m <=? nth (jmu + 1) mus (of_nat 0))
       then [(true, jmu)]
  else [].

(** Everything the centre [m] contributes to the two lists. *)
Definition entries (mus : list A) (m : A) : list (bool * nat) :=
  flat_map (entry_at mus m) (seq 0 (length mus - 1)).

Definition all_entries (mus centres : list A) : list (bool * nat) :=
  flat_map (entries mus) centres.

Fixpoint strictly_increasing (l : list A) : bool :=
  match l with
  | a :: (b :: _) as l' => (a <? b) && strictly_increasing l'
  | _ => true
  end.

End LookupSpec.

(** An interpolant that answers every query with the same scalar. *)
Definition constant_field (c : R) (f : interpolator R) : Prop :=
  forall p w k, (w < nlambda f)%nat -> (k < nmu f)%nat -> eval f p w k = c.

Definition Rsum (l : list R) : R := fold_right Rplus 0 l.

(** The factor a cell multiplies its intensity with (line 135):
    mu-centre, mu-width and azimuth-width. *)
Definition cell_factor (iphi itheta : nat) : R :=
  nth itheta mu_p_mean 0 * nth itheta del_mu_p 0 * nth iphi del_phi_p 0.

(** The sum of that factor over all the cells, in the order of the loops. *)
Definition hemisphere_constant : R :=
  Rsum (map (fun iphi => Rsum (map (cell_factor iphi)
                                   (seq 0 (length (mu_p_mean (A:=R))))))
            (seq 0 (length phi_p_mean))).

(** The wavelength and mu-bin dimensions of the intensity argument. *)
Definition wavelengths (intensity : ndarray) : nat :=
  match shape intensity with
  | [_; _; N; _] => N
  | [_; N; _] => N
  | _ => 0%nat
  end.

Definition mu_bins (intensity : ndarray) : nat :=
  match shape intensity with
  | [_; _; _; D] => D
  | [_; _; D] => D
  | _ => 0%nat
  end.

(** What the code relies on from scipy's constructor: the interpolant
    answers in the shape of the samples, and samples that all carry one
    value give an interpolant that carries that value everywhere. *)
Definition keeps_shape
           (RBF : list (R * R * R) -> ndarray -> R -> result (interpolator R)) : Prop :=
  forall points M N D values smoothing f,
    RBF points {| shape := [M; N; D]; data := values |} smoothing = inr f ->
    nlambda f = N /\ nmu f = D.

Definition reproduces_constants
           (RBF : list (R * R * R) -> ndarray -> R -> result (interpolator R)) : Prop :=
  forall points d smoothing f c,
    RBF points d smoothing = inr f ->
    Forall (eq c) (data d) -> constant_field c f.

(** [l[i], l[j] = l[j], l[i]] *)
Fixpoint update {X : Type} (i : nat) (x : X) (l : list X) {struct l} : list X :=
  match l, i with
  | [], _ => []
  | _ :: l', O => x :: l'
  | y :: l', S i' => y :: update i' x l'
  end.

Definition swap {X : Type} (i j : nat) (l : list X) : list X :=
  match nth_error l i, nth_error l j with
  | Some a, Some b => update i b (update j a l)
  | _, _ => l
  end.

Definition swap_index (i j k : nat) : nat :=
  if Nat.eqb k i then j else if Nat.eqb k j then i else k.

(** The weight of a cell, and the cells in the order the loops of lines
    116-117 visit them, as pairs [(iphi, itheta)]. *)
Definition cell_weight (iphi itheta : nat) : R :=
  nth itheta del_mu_p 0 * nth iphi del_phi_p 0.

Definition quadrature_cells : list (nat * nat) :=
  list_prod (seq 0 (length phi_p_mean)) (seq 0 (length (mu_p_mean (A:=R)))).

Definition identity3 : matrix := [[1; 0; 0]; [0; 1; 0]; [0; 0; 1]].

(** The entry the mu-band step is meant to read for the centre [m]: the
    low clamp, the high clamp, or the bracket that holds [m]. *)
Definition right_entry (mus : list R) (m : R) (e : bool * nat) : Prop :=
  (e = (false, 0%nat) /\ m <= nth 0 mus 0)
  \/ (e = (false, (length mus - 1)%nat) /\ nth (length mus - 1) mus 0 < m)
  \/ (exists j, e = (true, j) /\ (j + 1 < length mus)%nat
                /\ nth j mus 0 < m <= nth (j + 1) mus 0).

Fixpoint descending (l : list R) : Prop :=
  match l with
  | a :: (b :: _) as l' => b < a /\ descending l'
  | _ => True
  end.

(** The direction lines 51-55 give to one longitude and one latitude, in
    degrees. *)
Definition sphere_point (lon lat : R) : R * R * R :=
  (cos (lon / 180 * PI) * sin ((lat + 90) / 180 * PI),
   sin (lon / 180 * PI) * sin ((lat + 90) / 180 * PI),
   cos ((lat + 90) / 180 * PI)).

Definition on_unit_sphere (p : R * R * R) : Prop :=
  fst (fst p) * fst (fst p) + snd (fst p) * snd (fst p) + snd p * snd p = 1.

(** An array holding one value. *)
Definition single (v : R) : ndarray := {| shape := [1%nat]; data := [v] |}.

(** The interpolant [a * f + g], entry by entry, in the shape of [f]. *)
Definition combine_fields (a : R) (f g : interpolator R) : interpolator R :=
  {| nlambda := nlambda f; nmu := nmu f;
     eval := fun p w k => a * eval f p w k + eval g p w k |}.

Definition combine_flux (a : R) (F G : list R) : list R :=
  map2 (fun x y => a * x + y) F G.

(** ** Concrete inputs

    A 2 x 3 grid of surface points (two rings of latitude) carrying the
    intensity 1 in one wavelength and two mu bins, with the interpolant
    the stand-in builds from it; two longitudes against three latitudes;
    and one longitude against four latitudes. *)

Definition demo_lon : ndarray :=
  {| shape := [2; 3]%nat; data := [0; 120; 240; 0; 120; 240] |}.
Definition demo_lat : ndarray :=
  {| shape := [2; 3]%nat; data := [-30; -30; -30; 30; 30; 30] |}.
Definition demo_intensity : ndarray :=
  {| shape := [2; 3; 1; 2]%nat; data := repeat 1 12 |}.
Definition demo_field : interpolator R :=
  {| nlambda := 1; nmu := 2;
     eval := fun _ w k => nth (w * 2 + k) (repeat 1 12) 0 |}.

(** The demo grid with a single mu bin: intensity 1 in one wavelength. *)
Definition single_mu_intensity : ndarray :=
  {| shape := [2; 3; 1; 1]%nat; data := repeat 1 6 |}.
Definition single_mu_field : interpolator R :=
  {| nlambda := 1; nmu := 1;
     eval := fun _ w k => nth (w * 1 + k) (repeat 1 6) 0 |}.

Definition two_lon : ndarray := {| shape := [2%nat]; data := [0; 90] |}.
Definition three_lat : ndarray := {| shape := [3%nat]; data := [-30; 0; 30] |}.
Definition three_intensity : ndarray :=
  {| shape := [3; 1; 2]%nat; data := repeat 1 6 |}.

Definition one_lon : ndarray := {| shape := [1%nat]; data := [0] |}.
Definition four_lat : ndarray :=
  {| shape := [4%nat]; data := [-60; -30; 30; 60] |}.
Definition four_intensity : ndarray :=
  {| shape := [4; 1; 2]%nat; data := repeat 1 8 |}.

(** Sample mus 0.3, 0.5, 0.9 with the intensity [10 * mu] in the
    three bins of a single wavelength. *)
Definition three_mus : list Q := [3 # 10; 1 # 2; 9 # 10]%Q.
Definition linear_field : interpolator Q :=
  {| nlambda := 1; nmu := 3;
     eval := fun _ _ k => nth k [3; 5; 9]%Q 0%Q |}.
Definition origin : Q * Q * Q := (0, 0, 0)%Q.

(** The same sample mus as real numbers. *)
Definition three_mus_real : list R := [3 / 10; 1 / 2; 9 / 10].

(** The bins 0, 1 as a real interpolant with one wavelength. *)
Definition two_bins_field : interpolator R :=
  {| nlambda := 1; nmu := 2; eval := fun _ _ k => INR k |}.

(** The bins 3, 5, 9 as a real interpolant with one wavelength. *)
Definition three_bins_field : interpolator R :=
  {| nlambda := 1; nmu := 3; eval := fun _ _ k => nth k [3; 5; 9] 0 |}.

(** ** Facts about the monad *)

Lemma mapM_map {A B} (f : A -> result B) (g : A -> B) (l : list A) :
  (forall a, f a = inr (g a)) -> mapM f l = inr (map g l).
Proof.
  intros Hf. induction l as [|a l IH]; simpl; [reflexivity|].
  rewrite Hf, IH. reflexivity.
Qed.

Lemma foldM_invariant {A S} (P : S -> Prop) (f : S -> A -> result S) (l : list A) :
  (forall s a, In a l -> P s -> exists s', f s a = inr s' /\ P s') ->
  forall s, P s -> exists s', foldM f l s = inr s' /\ P s'.
Proof.
  induction l as [|a l IH]; intros Hf s Hs; simpl.
  - exists s. split; [reflexivity|assumption].
  - destruct (Hf s a (or_introl eq_refl) Hs) as (s1 & E1 & P1).
    rewrite E1. simpl. apply IH; [|assumption].
    intros s0 a0 Hin. apply Hf. right. assumption.
Qed.

(** ** The two lists are the entries, centre after centre *)

Section LookupFacts.
Context {A : Type} `{NumOrder A}.
Local Open Scope num_scope.

Lemma lookup_body_entry (mus : list A) (m : A) (t : tables) (jmu : nat) :
  lookup_body mus m t jmu =
  (fst t ++ map fst (entry_at mus m jmu), snd t ++ map snd (entry_at mus m jmu)).
Proof.
  unfold lookup_body, entry_at, append.
  destruct (m <=? nth 0 mus (of_nat 0)); [reflexivity|].
  destruct (m >? nth (length mus - 1) mus (of_nat 0)); [reflexivity|].
  destruct ((m >? nth jmu mus (of_nat 0)) && (m <=? nth (jmu + 1) mus (of_nat 0)));
    [reflexivity|].
  simpl. rewrite !app_nil_r. destruct t; reflexivity.
Qed.

Lemma inner_loop_entries (mus : list A) (m : A) (js : list nat) (t : tables) :
  fold_left (lookup_body mus m) js t =
  (fst t ++ map fst (flat_map (entry_at mus m) js),
   snd t ++ map snd (flat_map (entry_at mus m) js)).
Proof.
  revert t. induction js as [|j js IH]; intros t; simpl.
  - rewrite !app_nil_r. destruct t; reflexivity.
  - rewrite IH, lookup_body_entry. simpl.
    rewrite !map_app, !app_assoc. reflexivity.
Qed.

Lemma fold_left_indices {S : Type} (g : S -> A -> S) (l : list A) (d : A) (s : S) :
  fold_left (fun s i => g s (nth i l d)) (seq 0 (length l)) s = fold_left g l s.
Proof.
  revert s. induction l as [|a l IH]; intros s; [reflexivity|].
  simpl. rewrite <- seq_shift, <- IH.
  generalize (g s a). generalize (seq 0 (length l)).
  induction l0 as [|i l0 IH0]; intros s0; simpl; [reflexivity|].
  apply IH0.
Qed.

Lemma lookup_from_entries (mus centres : list A) (t : tables) :
  lookup_from mus centres t =
  (fst t ++ map fst (all_entries mus centres),
   snd t ++ map snd (all_entries mus centres)).
Proof.
  unfold lookup_from.
  rewrite (fold_left_indices
             (fun t m => fold_left (lookup_body mus m) (seq 0 (length mus - 1)) t)).
  revert t. induction centres as [|m cs IH]; intros t; simpl.
  - rewrite !app_nil_r. destruct t; reflexivity.
  - rewrite IH, inner_loop_entries. simpl.
    unfold all_entries, entries. simpl.
    rewrite !map_app, !app_assoc. reflexivity.
Qed.

Lemma lookup_entries (mus : list A) :
  lookup mus = (map fst (all_entries mus mu_p_mean),
                map snd (all_entries mus mu_p_mean)).
Proof. unfold lookup. rewrite lookup_from_entries. reflexivity. Qed.

End LookupFacts.

#[export] Instance NumOrder_Q : NumOrder Q.
Proof.
  constructor. intros a b. cbn. unfold Qltb.
  destruct (Qle_bool a b) eqn:E; simpl.
  - apply Qle_bool_iff in E.
    destruct (Qcompare b a) eqn:C; try reflexivity.
    apply Qlt_alt in C. exfalso. apply (Qlt_not_le _ _ C E).
  - destruct (Qcompare b a) eqn:C; try reflexivity; exfalso.
    + apply Qeq_alt in C.
      assert (Ht : Qle_bool a b = true)
        by (apply Qle_bool_iff; rewrite C; apply Qle_refl).
      congruence.
    + apply Qgt_alt in C.
      assert (Ht : Qle_bool a b = true)
        by (apply Qle_bool_iff; apply Qlt_le_weak; exact C).
      congruence.
Qed.

#[export] Instance NumOrder_R : NumOrder R.
Proof.
  constructor. intros a b. cbn. unfold Rltb, Rleb.
  destruct (Rlt_dec b a), (Rle_dec a b); simpl; try reflexivity; exfalso; lra.
Qed.

Section Coverage.
Context {A : Type} `{NumOrder A}.
Local Open Scope num_scope.

Lemma length_mu_p_mean : length (mu_p_mean (A:=A)) = 10%nat.
Proof. reflexivity. Qed.

Lemma length_del_mu_p : length (del_mu_p (A:=A)) = 10%nat.
Proof. reflexivity. Qed.

(** A centre above [mus[0]] and at most [mus[k]] lies in a bracket below [k],
    whatever the order of [mus]. *)
Lemma bracket_exists (mus : list A) (m : A) (k : nat) :
  (m <=? nth 0 mus (of_nat 0)) = false ->
  (m <=? nth k mus (of_nat 0)) = true ->
  exists j, (j < k)%nat /\ (m >? nth j mus (of_nat 0)) = true
            /\ (m <=? nth (j + 1) mus (of_nat 0)) = true.
Proof.
  intros Hlow. induction k as [|k IH]; intros Hk.
  - congruence.
  - destruct (m <=? nth k mus (of_nat 0)) eqn:E.
    + destruct (IH eq_refl) as (j & Hj & Hb). exists j. split; [lia|exact Hb].
    + exists k. split; [lia|]. split.
      * rewrite ltb_negb_leb, E. reflexivity.
      * replace (k + 1)%nat with (S k) by lia. exact Hk.
Qed.

Lemma flat_map_singleton {X Y : Type} (f : X -> list Y) (y : Y) (l : list X) :
  (forall x, f x = [y]) -> flat_map f l = repeat y (length l).
Proof.
  intros Hf. induction l as [|x l IH]; simpl; [reflexivity|].
  rewrite Hf, IH. reflexivity.
Qed.

Lemma entries_low (mus : list A) (m : A) :
  (m <=? nth 0 mus (of_nat 0)) = true ->
  entries mus m = repeat (false, 0%nat) (length mus - 1).
Proof.
  intros E. unfold entries.
  rewrite (flat_map_singleton (entry_at mus m) (false, 0%nat)), length_seq;
    [reflexivity|].
  intros j. unfold entry_at. rewrite E. reflexivity.
Qed.

Lemma entries_high (mus : list A) (m : A) :
  (m <=? nth 0 mus (of_nat 0)) = false ->
  (m >? nth (length mus - 1) mus (of_nat 0)) = true ->
  entries mus m = repeat (false, (length mus - 1)%nat) (length mus - 1).
Proof.
  intros E0 E1. unfold entries.
  rewrite (flat_map_singleton (entry_at mus m) (false, (length mus - 1)%nat)),
    length_seq; [reflexivity|].
  intros j. unfold entry_at. rewrite E0, E1. reflexivity.
Qed.

(** Every centre adds at least one entry once there are two sample mus. *)
Lemma entries_nonempty (mus : list A) (m : A) :
  (2 <= length mus)%nat -> (1 <= length (entries mus m))%nat.
Proof.
  intros Hn.
  destruct (m <=? nth 0 mus (of_nat 0)) eqn:E0.
  { rewrite entries_low, repeat_length by assumption. lia. }
  destruct (m >? nth (length mus - 1) mus (of_nat 0)) eqn:E1.
  { rewrite entries_high, repeat_length by assumption. lia. }
  rewrite ltb_negb_leb in E1. apply negb_false_iff in E1.
  destruct (bracket_exists mus m (length mus - 1) E0 E1) as (j & Hj & Hgt & Hle).
  assert (Hin : In (true, j) (entries mus m)).
  { unfold entries. apply in_flat_map. exists j. split.
    - apply in_seq. lia.
    - unfold entry_at. rewrite E0, ltb_negb_leb, E1. simpl.
      rewrite Hgt, Hle. left. reflexivity. }
  destruct (entries mus m); [destruct Hin | simpl; lia].
Qed.

Lemma all_entries_length (mus centres : list A) :
  (2 <= length mus)%nat -> (length centres <= length (all_entries mus centres))%nat.
Proof.
  intros Hn. unfold all_entries.
  induction centres as [|m cs IH]; simpl; [lia|].
  rewrite length_app. pose proof (entries_nonempty mus m Hn). lia.
Qed.

(** An entry never points outside [mus]: a bracket [(True, j)] has
    [j + 1] in range, a clamp [(False, i)] has [i] in range. *)
Lemma entries_in_range (mus : list A) (m : A) (b : bool) (i : nat) :
  In (b, i) (entries mus m) ->
  ((if b then i + 1 else i) < length mus)%nat.
Proof.
  unfold entries. intros Hin. apply in_flat_map in Hin.
  destruct Hin as (j & Hj & Hin). apply in_seq in Hj.
  unfold entry_at in Hin.
  destruct (m <=? nth 0 mus (of_nat 0)).
  { destruct Hin as [E|[]]. inversion E; subst. lia. }
  destruct (m >? nth (length mus - 1) mus (of_nat 0)).
  { destruct Hin as [E|[]]. inversion E; subst. lia. }
  destruct ((m >? nth j mus (of_nat 0)) && (m <=? nth (j + 1) mus (of_nat 0))).
  - destruct Hin as [E|[]]. inversion E; subst. lia.
  - destruct Hin.
Qed.

Lemma all_entries_in_range (mus centres : list A) (b : bool) (i : nat) :
  In (b, i) (all_entries mus centres) ->
  ((if b then i + 1 else i) < length mus)%nat.
Proof.
  unfold all_entries. intros Hin. apply in_flat_map in Hin.
  destruct Hin as (m & _ & Hin). exact (entries_in_range _ _ _ _ Hin).
Qed.

(** Both lists answer every index the quadrature loop asks for. *)
Lemma lookup_defined (mus : list A) (itheta : nat) :
  (2 <= length mus)%nat -> (itheta < 10)%nat ->
  exists b i,
    index (do_intp (lookup mus)) itheta = inr b /\
    index (i_intps (lookup mus)) itheta = inr i /\
    ((if b then i + 1 else i) < length mus)%nat.
Proof.
  intros Hn Hi. rewrite lookup_entries. unfold do_intp, i_intps, index.
  cbn [fst snd].
  pose proof (all_entries_length mus mu_p_mean Hn) as Hlen.
  rewrite length_mu_p_mean in Hlen.
  destruct (nth_error (all_entries mus mu_p_mean) itheta) as [[b i]|] eqn:E.
  - exists b, i. rewrite !nth_error_map, E. cbn [option_map fst snd].
    repeat split. apply nth_error_In in E.
    exact (all_entries_in_range _ _ _ _ E).
  - apply nth_error_None in E. lia.
Qed.

End Coverage.

(** ** The mu-band step and the quadrature loop return *)

Section Returns.
Context {A : Type} `{NumOrder A}.
Local Open Scope num_scope.

Lemma length_map2 (g : A -> A -> A) (a b : list A) :
  length (map2 g a b) = Nat.min (length a) (length b).
Proof.
  revert b. induction a as [|x a IH]; intros [|y b]; simpl; try reflexivity.
  rewrite IH. reflexivity.
Qed.

Lemma column_returns (f : interpolator A) (interp : nat -> nat -> A) (k : nat) :
  (k < nmu f)%nat ->
  column f interp k = inr (map (fun w => interp w k) (seq 0 (nlambda f))).
Proof.
  intros Hk. unfold column.
  destruct (Nat.ltb_spec k (nmu f)); [reflexivity|lia].
Qed.

Lemma index_returns {X : Type} (l : list X) (i : nat) :
  (i < length l)%nat -> exists x, index l i = inr x.
Proof.
  intros Hi. unfold index.
  destruct (nth_error l i) as [x|] eqn:E.
  - exists x. reflexivity.
  - apply nth_error_None in E. lia.
Qed.

Lemma I_use_returns (mus : list A) (f : interpolator A)
      (interp : nat -> nat -> A) (itheta : nat) :
  (2 <= length mus)%nat -> nmu f = length mus -> (itheta < 10)%nat ->
  exists v, I_use mus (lookup mus) f interp itheta = inr v
            /\ length v = nlambda f.
Proof.
  intros Hn Hd Hi.
  destruct (lookup_defined mus itheta Hn Hi) as (b & i & Eb & Ei & Hr).
  unfold I_use. rewrite Eb. cbn [bind]. rewrite Ei. cbn [bind].
  destruct b.
  - rewrite !column_returns by lia. cbn [bind].
    destruct (index_returns mus (i + 1)) as (hi & Ehi); [lia|].
    destruct (index_returns mus i) as (lo & Elo); [lia|].
    rewrite Ehi, Elo. cbn [bind]. eexists. split; [reflexivity|].
    unfold vadd, vscale, vdiv, vsub.
    rewrite length_map2, !length_map, length_map2, !length_map, length_seq. lia.
  - rewrite column_returns by lia. eexists. split; [reflexivity|].
    rewrite length_map, length_seq. reflexivity.
Qed.

End Returns.

Lemma length_phi_p_mean : length phi_p_mean = 10%nat.
Proof. reflexivity. Qed.

Lemma length_zeros (n : nat) : length (zeros (A:=R) n) = n.
Proof. apply repeat_length. Qed.

Lemma cell_returns (M : matrix) (mus : list R) (f : interpolator R)
      (iphi itheta : nat) (flux_arr : list R) :
  (2 <= length mus)%nat -> nmu f = length mus -> (itheta < 10)%nat ->
  length flux_arr = nlambda f ->
  exists flux', cell M mus (lookup mus) f iphi flux_arr itheta = inr flux'
                /\ length flux' = nlambda f.
Proof.
  intros Hn Hd Hi Hlen. unfold cell.
  destruct (I_use_returns mus f (eval f (query_point M iphi itheta)) itheta Hn Hd Hi)
    as (v & Ev & Hv).
  rewrite Ev. cbn [bind]. eexists. split; [reflexivity|].
  unfold vadd, vscale. rewrite length_map2, !length_map. lia.
Qed.

(** [calc_phase_curve] returns a flux per wavelength as soon as there are
    two sample mus and the interpolant has one bin per sample mu; the order
    of [mus] plays no part. *)
Lemma calc_phase_curve_returns (phase : R) (mus : list R) (f : interpolator R) :
  (2 <= length mus)%nat -> nmu f = length mus ->
  exists flux_arr, calc_phase_curve phase mus f = inr flux_arr
                   /\ length flux_arr = nlambda f.
Proof.
  intros Hn Hd. unfold calc_phase_curve.
  apply (foldM_invariant (fun flux => length flux = nlambda f));
    [|apply length_zeros].
  intros flux iphi _ Hflux.
  apply (foldM_invariant (fun flux => length flux = nlambda f)); [|exact Hflux].
  intros flux' itheta Hin Hflux'.
  apply in_seq in Hin. rewrite length_mu_p_mean in Hin.
  apply cell_returns; try assumption. lia.
Qed.

(** ** An isotropic field *)

Lemma map_seq_const {X : Type} (g : nat -> X) (c : X) (n s : nat) :
  (forall w, (s <= w < s + n)%nat -> g w = c) -> map g (seq s n) = repeat c n.
Proof.
  revert s. induction n as [|n IH]; intros s Hg; simpl; [reflexivity|].
  rewrite Hg by lia. f_equal. apply IH. intros w Hw. apply Hg. lia.
Qed.

Lemma map2_repeat (g : R -> R -> R) (a b : R) (n : nat) :
  map2 g (repeat a n) (repeat b n) = repeat (g a b) n.
Proof. induction n as [|n IH]; simpl; [reflexivity|]. rewrite IH. reflexivity. Qed.

Lemma column_constant (c : R) (f : interpolator R) (p : R * R * R) (k : nat) :
  constant_field c f -> (k < nmu f)%nat ->
  column f (eval f p) k = inr (repeat c (nlambda f)).
Proof.
  intros Hc Hk. rewrite column_returns by assumption. f_equal.
  apply map_seq_const. intros w Hw. apply Hc; lia.
Qed.

Lemma I_use_constant (c : R) (mus : list R) (f : interpolator R)
      (p : R * R * R) (itheta : nat) :
  constant_field c f ->
  (2 <= length mus)%nat -> nmu f = length mus -> (itheta < 10)%nat ->
  I_use mus (lookup mus) f (eval f p) itheta = inr (repeat c (nlambda f)).
Proof.
  intros Hc Hn Hd Hi.
  destruct (lookup_defined mus itheta Hn Hi) as (b & i & Eb & Ei & Hr).
  unfold I_use. rewrite Eb. cbn [bind]. rewrite Ei. cbn [bind].
  destruct b.
  - rewrite !(column_constant c f p) by (assumption || lia). cbn [bind].
    destruct (index_returns mus (i + 1)) as (hi & Ehi); [lia|].
    destruct (index_returns mus i) as (lo & Elo); [lia|].
    rewrite Ehi, Elo. cbn [bind]. unfold ret. f_equal.
    unfold vadd, vscale, vdiv, vsub.
    rewrite map2_repeat, !map_repeat, map2_repeat. f_equal.
    cbn. unfold Rdiv. ring.
  - apply column_constant; [assumption|lia].
Qed.

Lemma cell_constant (c a : R) (M : matrix) (mus : list R) (f : interpolator R)
      (iphi itheta : nat) :
  constant_field c f ->
  (2 <= length mus)%nat -> nmu f = length mus -> (itheta < 10)%nat ->
  cell M mus (lookup mus) f iphi (repeat a (nlambda f)) itheta =
  inr (repeat (a + c * cell_factor iphi itheta) (nlambda f)).
Proof.
  intros Hc Hn Hd Hi. unfold cell.
  rewrite (I_use_constant c) by assumption. cbn [bind]. unfold ret. f_equal.
  unfold vadd, vscale. rewrite !map_repeat, map2_repeat. f_equal.
  unfold cell_factor. cbn. ring.
Qed.

Lemma foldM_sum (N : nat) (g : nat -> R)
      (step : list R -> nat -> result (list R)) (l : list nat) :
  (forall a i, In i l -> step (repeat a N) i = inr (repeat (a + g i) N)) ->
  forall a, foldM step l (repeat a N) = inr (repeat (a + Rsum (map g l)) N).
Proof.
  induction l as [|i l IH]; intros Hstep a; simpl.
  - unfold ret. f_equal. f_equal. ring.
  - rewrite Hstep by (left; reflexivity). cbn [bind].
    rewrite IH by (intros; apply Hstep; right; assumption).
    f_equal. f_equal. ring.
Qed.

Lemma Rsum_scale (c : R) (g : nat -> R) (l : list nat) :
  Rsum (map (fun i => c * g i) l) = c * Rsum (map g l).
Proof. induction l as [|i l IH]; simpl; [ring|]. rewrite IH. ring. Qed.

Lemma calc_phase_curve_constant (c phase : R) (mus : list R) (f : interpolator R) :
  constant_field c f ->
  (2 <= length mus)%nat -> nmu f = length mus ->
  calc_phase_curve phase mus f = inr (repeat (c * hemisphere_constant) (nlambda f)).
Proof.
  intros Hc Hn Hd. unfold calc_phase_curve.
  change (zeros (nlambda f)) with (repeat 0 (nlambda f)).
  rewrite (foldM_sum (nlambda f)
             (fun iphi => c * Rsum (map (cell_factor iphi)
                                        (seq 0 (length (mu_p_mean (A:=R))))))).
  - f_equal. f_equal. rewrite Rsum_scale. unfold hemisphere_constant. ring.
  - intros a iphi _.
    rewrite (foldM_sum (nlambda f) (fun itheta => c * cell_factor iphi itheta)).
    + rewrite Rsum_scale. reflexivity.
    + intros a' itheta Hin. apply in_seq in Hin.
      rewrite length_mu_p_mean in Hin.
      apply cell_constant; try assumption. lia.
Qed.

Lemma hemisphere_constant_PI : hemisphere_constant = PI.
Proof.
  unfold hemisphere_constant, cell_factor. cbn. field.
Qed.

(** ** Lists of phases and rows *)

Lemma mapM_Forall2 {X Y : Type} (f : X -> result Y) (l : list X) (rows : list Y) :
  mapM f l = inr rows <-> Forall2 (fun a r => f a = inr r) l rows.
Proof.
  revert rows. induction l as [|a l IH]; intros rows; simpl; split; intros Hm.
  - inversion Hm. constructor.
  - inversion Hm. reflexivity.
  - destruct (f a) as [e|b] eqn:Ea; [discriminate|]. cbn [bind] in Hm.
    destruct (mapM f l) as [e|bs]; [discriminate|]. inversion Hm; subst.
    constructor; [assumption|]. apply IH. reflexivity.
  - inversion Hm as [|a' r l' rs Ha Hrest]; subst.
    apply IH in Hrest. rewrite Ha, Hrest. reflexivity.
Qed.

Lemma nth_error_update {X : Type} (i k : nat) (x : X) (l : list X) :
  nth_error (update i x l) k =
  if Nat.eqb k i then (if Nat.ltb i (length l) then Some x else None)
  else nth_error l k.
Proof.
  revert i k. induction l as [|y l IH]; intros i k; simpl.
  - destruct (Nat.eqb k i); destruct k; reflexivity.
  - destruct i as [|i], k as [|k]; simpl; try reflexivity.
    rewrite IH. reflexivity.
Qed.

Lemma length_update {X : Type} (i : nat) (x : X) (l : list X) :
  length (update i x l) = length l.
Proof.
  revert i. induction l as [|y l IH]; intros [|i]; simpl; try reflexivity.
  rewrite IH. reflexivity.
Qed.

(** [swap] exchanges positions [i] and [j] and keeps every other one. *)
Lemma nth_error_swap {X : Type} (i j k : nat) (l : list X) :
  (i < length l)%nat -> (j < length l)%nat ->
  nth_error (swap i j l) k = nth_error l (swap_index i j k).
Proof.
  intros Hi Hj. unfold swap, swap_index.
  destruct (nth_error l i) as [a|] eqn:Ea;
    [|apply nth_error_None in Ea; lia].
  destruct (nth_error l j) as [b|] eqn:Eb;
    [|apply nth_error_None in Eb; lia].
  rewrite !nth_error_update, length_update.
  destruct (Nat.ltb_spec i (length l)); [|lia].
  destruct (Nat.ltb_spec j (length l)); [|lia].
  destruct (Nat.eqb_spec k i) as [->|Hki]; [symmetry; exact Eb|].
  destruct (Nat.eqb_spec k j) as [->|Hkj]; [symmetry; exact Ea|].
  reflexivity.
Qed.

Lemma Forall2_update {X Y : Type} (P : X -> Y -> Prop) (i : nat) (x : X) (y : Y)
      (l : list X) (l' : list Y) :
  Forall2 P l l' -> P x y -> Forall2 P (update i x l) (update i y l').
Proof.
  intros HF Hxy. revert i. induction HF as [|a b l l' Hab HF IH]; intros i.
  - destruct i; constructor.
  - destruct i as [|i]; simpl; constructor; auto.
Qed.

Lemma Forall2_nth_error {X Y : Type} (P : X -> Y -> Prop) (l : list X) (l' : list Y)
      (i : nat) :
  Forall2 P l l' ->
  match nth_error l i, nth_error l' i with
  | Some a, Some b => P a b
  | None, None => True
  | _, _ => False
  end.
Proof.
  intros HF. revert i. induction HF as [|a b l l' Hab HF IH]; intros [|i]; simpl;
    auto.
  apply IH.
Qed.

Lemma Forall2_swap {X Y : Type} (P : X -> Y -> Prop) (i j : nat)
      (l : list X) (l' : list Y) :
  Forall2 P l l' -> Forall2 P (swap i j l) (swap i j l').
Proof.
  intros HF. unfold swap.
  pose proof (Forall2_nth_error P l l' i HF) as Hi.
  pose proof (Forall2_nth_error P l l' j HF) as Hj.
  destruct (nth_error l i), (nth_error l' i); try contradiction; [|assumption].
  destruct (nth_error l j), (nth_error l' j); try contradiction; [|assumption].
  apply Forall2_update; [|assumption].
  apply Forall2_update; assumption.
Qed.

(** ** The entry point *)

Lemma format_grid_bad_rank (a : ndarray) :
  rank a <> 1%nat -> rank a <> 2%nat -> format_grid a = inl IndexError.
Proof.
  unfold rank, format_grid. intros H1 H2.
  destruct (shape a) as [|s0 [|s1 [|s2 l]]]; simpl in *;
    try reflexivity; congruence.
Qed.

Lemma format_intensity_bad_rank (a : ndarray) :
  rank a <> 3%nat -> rank a <> 4%nat -> format_intensity a = inl IndexError.
Proof.
  unfold rank, format_intensity. intros H3 H4.
  destruct (shape a) as [|s0 [|s1 [|s2 [|s3 [|s4 l]]]]]; simpl in *;
    try reflexivity; congruence.
Qed.

Lemma format_grid_cases (a : ndarray) :
  format_grid a = inl IndexError \/ exists a', format_grid a = inr a'.
Proof.
  unfold format_grid.
  destruct (shape a) as [|s0 [|s1 [|s2 l]]]; eauto.
Qed.

Lemma format_intensity_inr (a a' : ndarray) :
  format_intensity a = inr a' ->
  exists M, a' = {| shape := [M; wavelengths a; mu_bins a]; data := data a |}.
Proof.
  unfold format_intensity, wavelengths, mu_bins. destruct a as [sh dat]. simpl.
  destruct sh as [|s0 [|s1 [|s2 [|s3 [|s4 l]]]]]; intros E;
    try discriminate; inversion E; eauto.
Qed.

Section DriverFacts.
Variable RBF : list (R * R * R) -> ndarray -> R -> result (interpolator R).

Lemma build_interpolator_inv (lon lat intensity : ndarray) (f : interpolator R) :
  build_interpolator RBF lon lat intensity = inr f ->
  exists points M,
    RBF points {| shape := [M; wavelengths intensity; mu_bins intensity];
                  data := data intensity |} (1 / 10) = inr f.
Proof.
  unfold build_interpolator. intros E.
  destruct (format_grid lon) as [e|_lon]; [discriminate|]. cbn [bind] in E.
  destruct (format_grid lat) as [e|_lat]; [discriminate|]. cbn [bind] in E.
  destruct (format_intensity intensity) as [e|_int] eqn:Ei; [discriminate|].
  cbn [bind] in E.
  destruct (cartesian _lon _lat) as [e|points]; [discriminate|]. cbn [bind] in E.
  destruct (format_intensity_inr _ _ Ei) as (M & ->).
  exists points, M. exact E.
Qed.

Lemma wrap_phase_curve_rows (phases : list R) (lon lat : ndarray) (mus : list R)
      (intensity : ndarray) (f : interpolator R) :
  build_interpolator RBF lon lat intensity = inr f ->
  (2 <= length mus)%nat -> nmu f = length mus ->
  exists rows,
    wrap_phase_curve RBF phases lon lat mus intensity = inr rows /\
    Forall2 (fun phase row => calc_phase_curve phase mus f = inr row
                              /\ length row = nlambda f) phases rows.
Proof.
  intros Eb Hn Hd. unfold wrap_phase_curve. rewrite Eb. cbn [bind].
  induction phases as [|phase phases IH]; simpl.
  - exists []. split; [reflexivity|constructor].
  - destruct (calc_phase_curve_returns phase mus f Hn Hd) as (row & Er & Hr).
    destruct IH as (rows & Em & HF). rewrite Er, Em. cbn [bind].
    exists (row :: rows). split; [reflexivity|]. constructor; auto.
Qed.

End DriverFacts.

(** ** The stand-in constructor meets what is asked of scipy's *)

Lemma first_sample_keeps_shape : keeps_shape first_sample_interpolator.
Proof.
  intros points M N D values smoothing f E.
  unfold first_sample_interpolator in E. simpl in E.
  destruct (_ && _) in E; [|discriminate].
  inversion E; subst. split; reflexivity.
Qed.

Lemma first_sample_reproduces_constants :
  reproduces_constants first_sample_interpolator.
Proof.
  intros points d smoothing f c E Hall p w k Hw Hk.
  unfold first_sample_interpolator in E.
  destruct (shape d) as [|M [|N [|D [|x l]]]]; try discriminate.
  destruct (_ && _) eqn:C in E; [|discriminate].
  inversion E; subst; cbn [nlambda nmu eval] in *.
  apply andb_true_iff in C. destruct C as [C Hlen].
  apply andb_true_iff in C. destruct C as [_ HM].
  apply Nat.eqb_eq in Hlen. apply Nat.leb_le in HM.
  assert (H1 : (w * D + k < N * D)%nat) by nia.
  assert (H2 : (1 * (N * D) <= M * (N * D))%nat)
    by (apply Nat.mul_le_mono_r; exact HM).
  assert (Hin : (w * D + k < length (data d))%nat) by (rewrite Hlen; lia).
  symmetry. rewrite Forall_forall in Hall. apply Hall. apply nth_In. exact Hin.
Qed.

Lemma demo_field_built :
  build_interpolator first_sample_interpolator demo_lon demo_lat demo_intensity
  = inr demo_field.
Proof. reflexivity. Qed.

Lemma demo_field_constant : constant_field 1 demo_field.
Proof.
  intros p w k Hw Hk. simpl in *.
  destruct w as [|w]; [|lia].
  destruct k as [|[|k]]; [reflexivity|reflexivity|lia].
Qed.

(** The run of the entry point on the demo grid, for any two sample mus. *)
Lemma demo_rows (mu0 mu1 : R) :
  wrap_phase_curve first_sample_interpolator [0; 1 / 2] demo_lon demo_lat
                   [mu0; mu1] demo_intensity
  = inr [[1 * hemisphere_constant]; [1 * hemisphere_constant]].
Proof.
  unfold wrap_phase_curve. rewrite demo_field_built. cbn [bind mapM].
  rewrite !(calc_phase_curve_constant 1 _ [mu0; mu1] demo_field)
    by (try exact demo_field_constant; simpl; lia).
  reflexivity.
Qed.

Lemma strictly_increasing_false_length (mus : list R) :
  strictly_increasing mus = false -> (2 <= length mus)%nat.
Proof.
  destruct mus as [|a [|b l]]; simpl; intros E; try discriminate. lia.
Qed.

(** ** When the lists are aligned with the centres

    With strictly increasing mus and no quadrature centre above the
    largest sample mu, every centre appends one entry or, once the centres
    have fallen to the smallest sample mu, low clamps only: entry [itheta]
    is then the right one for the centre [itheta]. *)

Lemma Rleb_le (a b : R) : (a <=? b)%num = true <-> a <= b.
Proof. cbn. unfold Rleb. destruct (Rle_dec a b); split; intros; try lra; congruence. Qed.

Lemma Rltb_lt (a b : R) : (a <? b)%num = true <-> a < b.
Proof. cbn. unfold Rltb. destruct (Rlt_dec a b); split; intros; try lra; congruence. Qed.

Lemma Rleb_gt (a b : R) : (a <=? b)%num = false <-> b < a.
Proof. cbn. unfold Rleb. destruct (Rle_dec a b); split; intros; try lra; congruence. Qed.

Lemma Rltb_ge (a b : R) : (a <? b)%num = false <-> b <= a.
Proof. cbn. unfold Rltb. destruct (Rlt_dec a b); split; intros; try lra; congruence. Qed.

Lemma strictly_increasing_lt (mus : list R) :
  strictly_increasing mus = true ->
  forall i j, (i < j < length mus)%nat -> nth i mus 0 < nth j mus 0.
Proof.
  induction mus as [|a [|b l] IH]; intros Hs i j Hij; simpl in Hij; try lia.
  change (strictly_increasing (a :: b :: l))
    with ((a <? b)%num && strictly_increasing (b :: l)) in Hs.
  apply andb_true_iff in Hs. destruct Hs as [Hab Hs]. apply Rltb_lt in Hab.
  destruct j as [|j]; [lia|]. destruct i as [|i].
  - change (nth 0 (a :: b :: l) 0) with a.
    change (nth (S j) (a :: b :: l) 0) with (nth j (b :: l) 0).
    destruct j as [|j]; [exact Hab|].
    assert (nth 0 (b :: l) 0 < nth (S j) (b :: l) 0)
      by (apply IH; [assumption|simpl; lia]).
    simpl in *. lra.
  - change (nth (S i) (a :: b :: l) 0) with (nth i (b :: l) 0).
    change (nth (S j) (a :: b :: l) 0) with (nth j (b :: l) 0).
    apply IH; [assumption|simpl; lia].
Qed.

Lemma flat_map_single_hit {Y : Type} (g : nat -> list Y) (y : Y) (j : nat)
      (l : list nat) :
  NoDup l -> In j l ->
  g j = [y] -> (forall k, In k l -> k <> j -> g k = []) ->
  flat_map g l = [y].
Proof.
  induction l as [|k l IH]; intros Hnd Hin Hj Hk; [destruct Hin|].
  inversion Hnd as [|k' l' Hnotin Hnd']; subst. simpl.
  destruct (Nat.eq_dec k j) as [->|Hne].
  - rewrite Hj. simpl. f_equal.
    assert (Hnil : forall l0, (forall k, In k l0 -> g k = []) -> flat_map g l0 = []).
    { induction l0 as [|x l0 IH0]; intros Hx; simpl; [reflexivity|].
      rewrite Hx by (left; reflexivity). apply IH0.
      intros k Hk0. apply Hx. right. exact Hk0. }
    apply Hnil. intros k Hk0. apply Hk; [right; exact Hk0|].
    intros ->. contradiction.
  - rewrite (Hk k) by (try (left; reflexivity); exact Hne). simpl.
    apply IH; try assumption.
    + destruct Hin as [->|Hin]; [contradiction|exact Hin].
    + intros k0 Hk0. apply Hk. right. exact Hk0.
Qed.

(** A centre inside a bracket of strictly increasing mus appends that
    bracket and nothing else. *)
Lemma entries_bracket (mus : list R) (m : R) (j : nat) :
  strictly_increasing mus = true -> (j + 1 < length mus)%nat ->
  nth j mus 0 < m <= nth (j + 1) mus 0 ->
  entries mus m = [(true, j)].
Proof.
  intros Hs Hj [Hlo Hhi].
  pose proof (strictly_increasing_lt mus Hs) as Hlt.
  assert (H0 : nth 0 mus 0 < m).
  { destruct j as [|j]; [exact Hlo|].
    assert (nth 0 mus 0 < nth (S j) mus 0) by (apply Hlt; lia). lra. }
  assert (Hn : m <= nth (length mus - 1) mus 0).
  { destruct (Nat.eq_dec (j + 1) (length mus - 1)) as [E|E].
    - rewrite <- E. exact Hhi.
    - assert (nth (j + 1) mus 0 < nth (length mus - 1) mus 0)
        by (apply Hlt; lia). lra. }
  assert (E0 : (m <=? nth 0 mus (of_nat 0))%num = false) by (apply Rleb_gt; exact H0).
  assert (E1 : (m >? nth (length mus - 1) mus (of_nat 0))%num = false)
    by (apply Rltb_ge; exact Hn).
  unfold entries.
  apply (flat_map_single_hit (entry_at mus m) (true, j) j).
  - apply seq_NoDup.
  - apply in_seq. lia.
  - unfold entry_at. rewrite E0, E1.
    assert (Ea : (m >? nth j mus (of_nat 0))%num = true) by (apply Rltb_lt; exact Hlo).
    assert (Eb : (m <=? nth (j + 1) mus (of_nat 0))%num = true)
      by (apply Rleb_le; exact Hhi).
    rewrite Ea, Eb. reflexivity.
  - intros k Hk Hkj. apply in_seq in Hk. unfold entry_at. rewrite E0, E1.
    destruct (m >? nth k mus (of_nat 0))%num eqn:Ea; [|reflexivity].
    destruct (m <=? nth (k + 1) mus (of_nat 0))%num eqn:Eb; [|reflexivity].
    exfalso. apply Rltb_lt in Ea. apply Rleb_le in Eb.
    change (of_nat 0) with 0 in Ea, Eb.
    destruct (Nat.lt_ge_cases k j) as [Hkltj|Hkgej].
    + destruct (Nat.eq_dec (k + 1) j) as [E|E].
      * rewrite E in Eb. lra.
      * assert (nth (k + 1) mus 0 < nth j mus 0) by (apply Hlt; lia). lra.
    + destruct (Nat.eq_dec (j + 1) k) as [E|E].
      * rewrite E in Hhi. lra.
      * assert (nth (j + 1) mus 0 < nth k mus 0) by (apply Hlt; lia). lra.
Qed.

(** The literal [0.] of the real instance is the real number 0. *)
Ltac real_zero := change (@of_nat R Num_R 0%nat) with 0 in *.

Lemma all_entries_low_only (mus cs : list R) :
  Forall (fun c => c <= nth 0 mus 0) cs ->
  all_entries mus cs = repeat (false, 0%nat) (length cs * (length mus - 1)).
Proof.
  induction 1 as [|c cs Hc Hcs IH]; [reflexivity|].
  change (all_entries mus (c :: cs)) with (entries mus c ++ all_entries mus cs).
  rewrite IH, entries_low by (apply Rleb_le; exact Hc).
  rewrite <- repeat_app. reflexivity.
Qed.

Lemma descending_below (c : R) (cs : list R) :
  descending (c :: cs) -> Forall (fun x => x < c) cs /\ descending cs.
Proof.
  revert c. induction cs as [|b cs IH]; intros c Hd; [split; constructor|].
  destruct Hd as [Hbc Hd]. destruct (IH b Hd) as [Hall Hd'].
  split; [|exact Hd]. constructor; [exact Hbc|].
  eapply Forall_impl; [|exact Hall]. simpl. intros x Hx. lra.
Qed.

Lemma nth_error_repeat_lt {X : Type} (x : X) (n k : nat) :
  (k < n)%nat -> nth_error (repeat x n) k = Some x.
Proof.
  revert k. induction n as [|n IH]; intros k Hk; [lia|].
  destruct k as [|k]; simpl; [reflexivity|]. apply IH. lia.
Qed.

Lemma all_entries_aligned (mus cs : list R) (k : nat) :
  strictly_increasing mus = true -> (2 <= length mus)%nat ->
  descending cs ->
  length mus = 2%nat \/ Forall (fun c => c <= nth (length mus - 1) mus 0) cs ->
  (k < length cs)%nat ->
  exists e, nth_error (all_entries mus cs) k = Some e
            /\ right_entry mus (nth k cs 0) e.
Proof.
  intros Hs Hn. revert k.
  induction cs as [|c cs IH]; intros k Hd Hhigh Hk; simpl in Hk; [lia|].
  destruct (descending_below c cs Hd) as [Hbelow Hd'].
  assert (Hhigh' : length mus = 2%nat
                   \/ Forall (fun c => c <= nth (length mus - 1) mus 0) cs).
  { destruct Hhigh as [H2|Hall]; [left; exact H2|right].
    inversion Hall; assumption. }
  destruct (Rle_dec c (nth 0 mus 0)) as [Hlow|Hnlow].
  - (* from here on every centre is clamped low *)
    assert (Hall : Forall (fun x => x <= nth 0 mus 0) (c :: cs)).
    { constructor; [exact Hlow|].
      eapply Forall_impl; [|exact Hbelow]. simpl. intros x Hx. lra. }
    rewrite all_entries_low_only by exact Hall.
    exists (false, 0%nat). split.
    + apply nth_error_repeat_lt. simpl. nia.
    + left. split; [reflexivity|].
      rewrite Forall_forall in Hall. apply Hall. apply nth_In. simpl. lia.
  - (* the centre appends a single entry *)
    assert (Hone : exists e, entries mus c = [e] /\ right_entry mus c e).
    { destruct (Rlt_dec (nth (length mus - 1) mus 0) c) as [Hgt|Hngt].
      - destruct Hhigh as [H2|Hall];
          [|inversion Hall; subst; lra].
        exists (false, (length mus - 1)%nat). split.
        + rewrite entries_high;
            [rewrite H2; reflexivity
            |apply Rleb_gt; real_zero; lra
            |apply Rltb_lt; exact Hgt].
        + right. left. split; [reflexivity|exact Hgt].
      - destruct (bracket_exists mus c (length mus - 1)) as (j & Hj & Ha & Hb).
        + apply Rleb_gt. real_zero. lra.
        + apply Rleb_le. real_zero. lra.
        + apply Rltb_lt in Ha. apply Rleb_le in Hb. real_zero.
          exists (true, j). split.
          * apply entries_bracket; [assumption|lia|lra].
          * right. right. exists j. repeat split; [lia|lra|lra]. }
    destruct Hone as (e & He & Hright).
    change (all_entries mus (c :: cs)) with (entries mus c ++ all_entries mus cs).
    rewrite He. destruct k as [|k].
    + exists e. split; [reflexivity|exact Hright].
    + simpl. apply IH; [assumption|assumption|lia].
Qed.

Lemma mu_p_mean_values :
  mu_p_mean
  = [19 / 20; 17 / 20; 15 / 20; 13 / 20; 11 / 20;
     9 / 20; 7 / 20; 5 / 20; 3 / 20; 1 / 20].
Proof. cbn. repeat (f_equal; try lra). Qed.

(** Entry [itheta] of the lists is the right one for the centre [itheta]
    when no centre lies above the largest sample mu, or when there are
    exactly two sample mus. *)
Lemma lookup_aligned (mus : list R) (itheta : nat) :
  strictly_increasing mus = true -> (2 <= length mus)%nat ->
  length mus = 2%nat \/ nth 0 mu_p_mean 0 <= nth (length mus - 1) mus 0 ->
  (itheta < 10)%nat ->
  exists b i,
    index (do_intp (lookup mus)) itheta = inr b
    /\ index (i_intps (lookup mus)) itheta = inr i
    /\ right_entry mus (nth itheta mu_p_mean 0) (b, i).
Proof.
  intros Hs Hn Hhigh Hi.
  assert (Hd : descending (mu_p_mean (A:=R))).
  { rewrite mu_p_mean_values. simpl. repeat split; lra. }
  destruct (all_entries_aligned mus mu_p_mean itheta Hs Hn Hd) as ([b i] & E & Hr).
  - destruct Hhigh as [H2|H0]; [left; exact H2|right].
    rewrite mu_p_mean_values in *. simpl in H0.
    repeat (apply Forall_cons; [lra|]). apply Forall_nil.
  - rewrite length_mu_p_mean. exact Hi.
  - exists b, i. rewrite lookup_entries. unfold do_intp, i_intps, index.
    cbn [fst snd]. rewrite !nth_error_map, E. cbn [option_map fst snd].
    repeat split. exact Hr.
Qed.

Lemma index_nth (l : list R) (i : nat) :
  (i < length l)%nat -> index l i = inr (nth i l 0).
Proof.
  intros Hi. unfold index.
  destruct (nth_error l i) as [x|] eqn:E.
  - rewrite (nth_error_nth l i 0 E). reflexivity.
  - apply nth_error_None in E. lia.
Qed.

Lemma map2_map (g : R -> R -> R) (a b : nat -> R) (l : list nat) :
  map2 g (map a l) (map b l) = map (fun w => g (a w) (b w)) l.
Proof. induction l as [|w l IH]; simpl; [reflexivity|]. rewrite IH. reflexivity. Qed.

(** What C1 and C3 describe, on the inputs where the lists are aligned:
    the first bin below the sample range, the last bin above it, and the
    linear interpolation inside a bracket. *)
Lemma mu_band_step_aligned (mus : list R) (f : interpolator R)
      (interp : nat -> nat -> R) (itheta : nat) :
  strictly_increasing mus = true -> (2 <= length mus)%nat ->
  nmu f = length mus ->
  length mus = 2%nat \/ nth 0 mu_p_mean 0 <= nth (length mus - 1) mus 0 ->
  (itheta < 10)%nat ->
  let m := nth itheta mu_p_mean 0 in
  (m <= nth 0 mus 0 ->
   I_use mus (lookup mus) f interp itheta = column f interp 0)
  /\ (nth (length mus - 1) mus 0 < m ->
      I_use mus (lookup mus) f interp itheta = column f interp (length mus - 1))
  /\ (forall j, (j + 1 < length mus)%nat ->
                nth j mus 0 < m <= nth (j + 1) mus 0 ->
                I_use mus (lookup mus) f interp itheta
                = inr (map (fun w =>
                              interp w j
                              + (interp w (j + 1)%nat - interp w j)
                                / (nth (j + 1) mus 0 - nth j mus 0)
                                * (m - nth j mus 0))
                           (seq 0 (nlambda f)))).
Proof.
  intros Hs Hn Hd Hhigh Hi m.
  pose proof (strictly_increasing_lt mus Hs) as Hlt.
  assert (Hends : nth 0 mus 0 < nth (length mus - 1) mus 0) by (apply Hlt; lia).
  assert (Hfirst : forall j, nth 0 mus 0 <= nth j mus 0 \/ (length mus <= j)%nat).
  { intros [|j]; [left; lra|].
    destruct (Nat.lt_ge_cases (S j) (length mus)); [left|right; assumption].
    assert (nth 0 mus 0 < nth (S j) mus 0) by (apply Hlt; lia). lra. }
  assert (Hlast : forall j, (j < length mus)%nat ->
                            nth j mus 0 <= nth (length mus - 1) mus 0).
  { intros j Hj. destruct (Nat.eq_dec j (length mus - 1)) as [->|Hne]; [lra|].
    assert (nth j mus 0 < nth (length mus - 1) mus 0) by (apply Hlt; lia). lra. }
  destruct (lookup_aligned mus itheta Hs Hn Hhigh Hi) as (b & i & Eb & Ei & Hr).
  fold m in Hr. unfold I_use. rewrite Eb. cbn [bind]. rewrite Ei.
  destruct Hr as [[E Hm]|[[E Hm]|(j0 & E & Hj0 & Hm)]]; inversion E; subst b i;
    cbn [bind]; (split; [|split]).
  - intros _. reflexivity.
  - intros Hc. lra.
  - intros j Hj Hb. destruct (Hfirst j) as [H0|H0]; [lra|lia].
  - intros Hc. lra.
  - intros _. reflexivity.
  - intros j Hj Hb. pose proof (Hlast (j + 1)%nat Hj). lra.
  - intros Hc. destruct (Hfirst j0) as [H0|H0]; [lra|lia].
  - intros Hc. pose proof (Hlast (j0 + 1)%nat Hj0). lra.
  - intros j Hj Hb.
    assert (j = j0).
    { destruct (Nat.lt_trichotomy j j0) as [Hl|[He|Hg]]; [|exact He|]; exfalso.
      - destruct (Nat.eq_dec (j + 1) j0) as [E1|E1].
        + rewrite E1 in Hb. lra.
        + assert (nth (j + 1) mus 0 < nth j0 mus 0) by (apply Hlt; lia). lra.
      - destruct (Nat.eq_dec (j0 + 1) j) as [E1|E1].
        + rewrite E1 in Hm. lra.
        + assert (nth (j0 + 1) mus 0 < nth j mus 0) by (apply Hlt; lia). lra. }
    subst j0.
    rewrite !column_returns by lia. cbn [bind].
    rewrite !index_nth by lia. cbn [bind]. unfold ret. f_equal.
    unfold vadd, vscale, vdiv, vsub.
    rewrite map2_map, !map_map, map2_map. reflexivity.
Qed.

(** On such inputs an intensity that is linear in mu is reproduced
    inside a bracket. *)
Lemma linear_intensity_reproduced (mus : list R) (f : interpolator R)
      (a b : nat -> R) (itheta j : nat) :
  strictly_increasing mus = true -> (2 <= length mus)%nat ->
  nmu f = length mus ->
  length mus = 2%nat \/ nth 0 mu_p_mean 0 <= nth (length mus - 1) mus 0 ->
  (itheta < 10)%nat -> (j + 1 < length mus)%nat ->
  nth j mus 0 < nth itheta mu_p_mean 0 <= nth (j + 1) mus 0 ->
  I_use mus (lookup mus) f (fun w k => a w + b w * nth k mus 0) itheta
  = inr (map (fun w => a w + b w * nth itheta mu_p_mean 0) (seq 0 (nlambda f))).
Proof.
  intros Hs Hn Hd Hhigh Hi Hj Hb.
  destruct (mu_band_step_aligned mus f (fun w k => a w + b w * nth k mus 0)
              itheta Hs Hn Hd Hhigh Hi) as (_ & _ & Hin).
  rewrite (Hin j Hj Hb). f_equal. apply map_ext. intros w.
  assert (nth j mus 0 < nth (j + 1) mus 0)
    by (apply strictly_increasing_lt; [assumption|lia]).
  field. lra.
Qed.

(** The run of the module's own script, 20 mus from -1 to 1: every centre
    lies in a bracket and the lists have one entry per centre. *)
Example main_scenario_lookup :
  lookup (linspace (-1)%Q 1%Q 20)
  = ([true; true; true; true; true; true; true; true; true; true],
     [18; 17; 16; 15; 14; 13; 12; 11; 10; 9]%nat).
Proof. vm_compute. reflexivity. Qed.

(** ** Sample mus 0.3, 0.5, 0.9 over the reals

    The lists are those the rational run computes: the centre 0.95 is
    above 0.9 and appends two entries, which shifts every later one. *)

Lemma three_mus_real_increasing : strictly_increasing three_mus_real = true.
Proof.
  unfold three_mus_real. cbn [strictly_increasing].
  rewrite !(proj2 (Rltb_lt _ _)) by lra. reflexivity.
Qed.

Lemma three_mus_real_tables :
  lookup three_mus_real
  = ([false; false; true; true; true; true; true; true;
      false; false; false; false; false; false],
     [2; 2; 1; 1; 1; 1; 0; 0; 0; 0; 0; 0; 0; 0]%nat).
Proof.
  pose proof three_mus_real_increasing as Hs.
  rewrite lookup_entries, mu_p_mean_values. unfold all_entries.
  cbn [flat_map].
  rewrite (entries_high three_mus_real (19 / 20))
    by (first [apply Rleb_gt|apply Rltb_lt]; simpl; lra).
  rewrite (entries_bracket three_mus_real (17 / 20) 1),
          (entries_bracket three_mus_real (15 / 20) 1),
          (entries_bracket three_mus_real (13 / 20) 1),
          (entries_bracket three_mus_real (11 / 20) 1),
          (entries_bracket three_mus_real (9 / 20) 0),
          (entries_bracket three_mus_real (7 / 20) 0)
    by (try exact Hs; simpl; try lia; lra).
  rewrite !entries_low by (apply Rleb_le; simpl; lra).
  reflexivity.
Qed.

(** ** The quadrature loop as one loop over the cells *)

Lemma foldM_ext {X S : Type} (f g : S -> X -> result S) (l : list X) (s : S) :
  (forall s a, f s a = g s a) -> foldM f l s = foldM g l s.
Proof.
  intros Hfg. revert s. induction l as [|a l IH]; intros s; simpl; [reflexivity|].
  rewrite Hfg. destruct (g s a); simpl; [reflexivity|apply IH].
Qed.

Lemma foldM_app {X S : Type} (f : S -> X -> result S) (l l' : list X) (s : S) :
  foldM f (l ++ l') s = (s' <- foldM f l s ;; foldM f l' s').
Proof.
  revert s. induction l as [|a l IH]; intros s; simpl; [reflexivity|].
  destruct (f s a); simpl; [reflexivity|apply IH].
Qed.

Lemma foldM_map {X Y S : Type} (f : S -> Y -> result S) (h : X -> Y)
      (l : list X) (s : S) :
  foldM f (map h l) s = foldM (fun s a => f s (h a)) l s.
Proof.
  revert s. induction l as [|a l IH]; intros s; simpl; [reflexivity|].
  destruct (f s (h a)); simpl; [reflexivity|apply IH].
Qed.

(** Two nested loops visit the pairs of [list_prod] in order. *)
Lemma foldM_list_prod {X Y S : Type} (f : S -> X * Y -> result S)
      (la : list X) (lb : list Y) (s : S) :
  foldM (fun s a => foldM (fun s b => f s (a, b)) lb s) la s
  = foldM f (list_prod la lb) s.
Proof.
  revert s. induction la as [|a la IH]; intros s; simpl; [reflexivity|].
  rewrite foldM_app, foldM_map.
  destruct (foldM (fun s b => f s (a, b)) lb s); simpl; [reflexivity|apply IH].
Qed.

Lemma cell_weighted (M : matrix) (mus : list R) (t : tables) (f : interpolator R)
      (iphi itheta : nat) (flux_arr : list R) :
  cell M mus t f iphi flux_arr itheta
  = (I <- I_use mus t f (eval f (query_point M iphi itheta)) itheta ;;
     ret (vadd flux_arr
               (vscale (vscale I (nth itheta mu_p_mean 0))
                       (cell_weight iphi itheta)))).
Proof.
  unfold cell. destruct (I_use _ _ _ _ _) as [e|I]; [reflexivity|].
  cbn [bind]. unfold ret. do 2 f_equal. unfold vscale, cell_weight.
  rewrite !map_map. apply map_ext. intros x. cbn. ring.
Qed.

(** ** Fewer than two sample mus *)

Lemma lookup_few_mus (mus : list R) :
  (length mus <= 1)%nat -> lookup mus = ([], []).
Proof.
  intros Hn. rewrite lookup_entries.
  assert (E : all_entries mus (mu_p_mean (A:=R)) = []).
  { unfold all_entries, entries.
    replace (length mus - 1)%nat with 0%nat by lia.
    induction (mu_p_mean (A:=R)) as [|c cs IH]; simpl; [reflexivity|exact IH]. }
  rewrite E. reflexivity.
Qed.

(** With the interpolant built and at least one phase, the entry point
    stops at the first cell of the first phase. *)
Lemma wrap_phase_curve_few_mus
      (RBF : list (R * R * R) -> ndarray -> R -> result (interpolator R))
      (phase : R) (phases : list R) (lon lat : ndarray) (mus : list R)
      (intensity : ndarray) (f : interpolator R) :
  build_interpolator RBF lon lat intensity = inr f ->
  (length mus <= 1)%nat ->
  wrap_phase_curve RBF (phase :: phases) lon lat mus intensity = inl IndexError.
Proof.
  intros Eb Hn. unfold wrap_phase_curve. rewrite Eb. cbn [bind mapM].
  unfold calc_phase_curve at 1.
  rewrite (lookup_few_mus mus Hn), length_phi_p_mean, length_mu_p_mean.
  reflexivity.
Qed.

Lemma single_mu_field_built :
  build_interpolator first_sample_interpolator demo_lon demo_lat
                     single_mu_intensity
  = inr single_mu_field.
Proof. reflexivity. Qed.

(** * The claims *)

(** ** C1 and C3: the lookup lists are read by [itheta] *)

(** C1 at sample mus 0.3, 0.5, 0.9: the quadrature centre 0.25 (index 7)
    is below the smallest sample mu, but entry 7 of the lists is a bracket
    entry [(True, 0)], left there by the two entries the centre 0.95
    appended.  Run on rationals with the bins 3, 5, 9, the step returns
    2.5, extrapolated from bins 0 and 1, where the first bin holds 3; over
    the reals it returns that extrapolation for every interpolant with
    three mu bins. *)
Theorem low_centre_reads_bracket_entry :
  (strictly_increasing three_mus = true
   /\ (nth 7 mu_p_mean (of_nat 0) <=? nth 0 three_mus (of_nat 0))%num = true
   /\ lookup three_mus
      = ([false; false; true; true; true; true; true; true;
          false; false; false; false; false; false],
         [2; 2; 1; 1; 1; 1; 0; 0; 0; 0; 0; 0; 0; 0]%nat)
   /\ index (do_intp (lookup three_mus)) 7 = inr true
   /\ index (i_intps (lookup three_mus)) 7 = inr 0%nat
   /\ column linear_field (eval linear_field origin) 0 = inr [3%Q]
   /\ I_use three_mus (lookup three_mus) linear_field (eval linear_field origin) 7
      = inr [(5 # 2)%Q])
  /\ nth 7 mu_p_mean 0 <= nth 0 three_mus_real 0
  /\ forall (f : interpolator R) (interp : nat -> nat -> R),
       nmu f = 3%nat ->
       I_use three_mus_real (lookup three_mus_real) f interp 7
       = inr (map (fun w =>
                     interp w 0%nat
                     + (interp w 1%nat - interp w 0%nat) / (1 / 2 - 3 / 10)
                       * (5 / 20 - 3 / 10))
                  (seq 0 (nlambda f))).
Proof.
  split; [repeat split; vm_compute; reflexivity|]. split.
  - rewrite mu_p_mean_values. simpl. lra.
  - intros f interp Hd. unfold I_use.
    rewrite three_mus_real_tables, mu_p_mean_values.
    cbn [do_intp i_intps fst snd index nth_error bind ret].
    rewrite !column_returns by lia.
    cbn [bind ret Nat.add index nth_error three_mus_real nth].
    f_equal. unfold vadd, vscale, vdiv, vsub.
    rewrite map2_map, !map_map, map2_map. reflexivity.
Qed.

(** C3 at the same mus: the centre 0.85 (index 1) lies in the bracket
    (0.5, 0.9], where the interpolation formula gives 8.5 for the bins
    3, 5, 9, the value of the linear intensity [10 * mu]; entry 1 of the
    lists is the clamp entry [(False, 2)] of the centre 0.95, and the step
    returns the last bin, 9.  Over the reals it returns the last bin for
    every interpolant with three mu bins. *)
Theorem interior_centre_reads_clamp_entry :
  (strictly_increasing three_mus = true
   /\ (nth 1 mu_p_mean (of_nat 0) >? nth 1 three_mus (of_nat 0))%num = true
   /\ (nth 1 mu_p_mean (of_nat 0) <=? nth 2 three_mus (of_nat 0))%num = true
   /\ entries three_mus (nth 1 mu_p_mean (of_nat 0)) = [(true, 1%nat)]
   /\ (5%Q + (9%Q - 5%Q)
              * (nth 1 mu_p_mean (of_nat 0) - nth 1 three_mus (of_nat 0))
           / (nth 2 three_mus (of_nat 0) - nth 1 three_mus (of_nat 0)))%num
      = (17 # 2)%Q
   /\ index (do_intp (lookup three_mus)) 1 = inr false
   /\ index (i_intps (lookup three_mus)) 1 = inr 2%nat
   /\ I_use three_mus (lookup three_mus) linear_field (eval linear_field origin) 1
      = inr [9%Q])
  /\ nth 1 three_mus_real 0 < nth 1 mu_p_mean 0 <= nth 2 three_mus_real 0
  /\ forall (f : interpolator R) (interp : nat -> nat -> R),
       nmu f = 3%nat ->
       I_use three_mus_real (lookup three_mus_real) f interp 1
       = inr (map (fun w => interp w 2%nat) (seq 0 (nlambda f))).
Proof.
  split; [repeat split; vm_compute; reflexivity|]. split.
  - rewrite mu_p_mean_values. simpl. lra.
  - intros f interp Hd. unfold I_use.
    rewrite three_mus_real_tables.
    cbn [do_intp i_intps fst snd index nth_error bind ret].
    rewrite column_returns by lia. reflexivity.
Qed.

(** ** C2: the shape checks of the entry point *)

(** C2, as the code has it: when [lon] or [lat] has a rank other than 1 or
    2, or [intensity] a rank other than 3 or 4, [wrap_phase_curve] raises
    [IndexError] whatever the constructor, the phases and the mus are:
    nothing is transformed, fitted or integrated before, and no row is
    returned. *)
Theorem bad_rank_raises_IndexError
        (RBF : list (R * R * R) -> ndarray -> R -> result (interpolator R))
        (phases : list R) (lon lat : ndarray) (mus : list R) (intensity : ndarray) :
  (rank lon <> 1%nat /\ rank lon <> 2%nat)
  \/ (rank lat <> 1%nat /\ rank lat <> 2%nat)
  \/ (rank intensity <> 3%nat /\ rank intensity <> 4%nat) ->
  wrap_phase_curve RBF phases lon lat mus intensity = inl IndexError.
Proof.
  intros Hbad. unfold wrap_phase_curve, build_interpolator.
  destruct Hbad as [[H1 H2]|Hbad].
  { rewrite format_grid_bad_rank by assumption. reflexivity. }
  destruct (format_grid_cases lon) as [->|(_lon & ->)]; [reflexivity|].
  cbn [bind].
  destruct Hbad as [[H1 H2]|[H3 H4]].
  { rewrite format_grid_bad_rank by assumption. reflexivity. }
  destruct (format_grid_cases lat) as [->|(_lat & ->)]; [reflexivity|].
  cbn [bind].
  rewrite format_intensity_bad_rank by assumption. reflexivity.
Qed.

(** A longitude array of rank 3 is refused. *)
Lemma bad_rank_raises_IndexError_witness :
  wrap_phase_curve first_sample_interpolator [0; 1 / 2]
                   {| shape := [1; 2; 3]%nat; data := data demo_lon |}
                   demo_lat [0; 1] demo_intensity
  = inl IndexError.
Proof.
  apply bad_rank_raises_IndexError.
  left. split; unfold rank; simpl; lia.
Defined.

(** C2, as stated, fails on sizes, which the entry point never compares.
    Two longitudes against three latitudes: the product of line 53 cannot
    be broadcast and what surfaces is numpy's [ValueError], not the
    [IndexError] of the rank checks.  One longitude against four
    latitudes: line 53 broadcasts the longitude over the latitudes, no
    exception is raised up to the constructor, which receives four
    directions for four intensity rows; with a constructor that accepts
    them the entry point returns a row. *)
Lemma size_mismatch_not_raised :
  (length (data two_lon) <> length (data three_lat)
   /\ wrap_phase_curve first_sample_interpolator [0] two_lon three_lat [0; 1]
                       three_intensity = inl ValueError)
  /\ (length (data one_lon) <> length (data four_lat)
      /\ (exists points, cartesian one_lon four_lat = inr points
                         /\ length points = 4%nat)
      /\ exists rows,
          wrap_phase_curve first_sample_interpolator [0] one_lon four_lat [0; 1]
                           four_intensity = inr rows).
Proof.
  split; [split; [simpl; lia|reflexivity]|].
  split; [simpl; lia|]. split.
  - eexists. split; reflexivity.
  - destruct (wrap_phase_curve_rows first_sample_interpolator [0]
                one_lon four_lat [0; 1] four_intensity
                {| nlambda := 1; nmu := 2;
                   eval := fun _ w k =>
                             nth (w * 2 + k) (data four_intensity) 0 |})
      as (rows & E & _); [reflexivity|simpl; lia|reflexivity|].
    exists rows. exact E.
Qed.

(** ** C4: an isotropic field *)

(** C4 on an intensity that is 1 everywhere with a single mu bin (a 2 x 3
    grid, one wavelength, [mus = [0.5]], phases 0 and 0.5): the input is
    accepted, the interpolant is built and answers 1 everywhere, and the
    claim gives every phase the flux 1 times the sum of the cell factors;
    the code returns no flux: the loop of line 97 is empty, the clamp
    branches inside it never run, both lookup lists stay empty, and
    [do_intp[0]] raises [IndexError] in the first cell, for every phase. *)
Theorem isotropic_single_mu_raises :
  Forall (eq 1) (data single_mu_intensity)
  /\ strictly_increasing [1 / 2] = true
  /\ length [1 / 2] = mu_bins single_mu_intensity
  /\ build_interpolator first_sample_interpolator demo_lon demo_lat
                        single_mu_intensity = inr single_mu_field
  /\ constant_field 1 single_mu_field
  /\ nmu single_mu_field = length [1 / 2]
  /\ lookup [1 / 2] = ([], [])
  /\ (forall phase, calc_phase_curve phase [1 / 2] single_mu_field
                    = inl IndexError)
  /\ wrap_phase_curve first_sample_interpolator [0; 1 / 2] demo_lon demo_lat
                      [1 / 2] single_mu_intensity
     = inl IndexError.
Proof.
  assert (Hl : lookup [1 / 2] = ([], [])) by (apply lookup_few_mus; simpl; lia).
  split; [simpl; repeat constructor|].
  split; [reflexivity|]. split; [reflexivity|].
  split; [exact single_mu_field_built|]. split.
  { intros p w k Hw Hk. simpl in *.
    destruct w as [|w]; [|lia]. destruct k as [|k]; [reflexivity|lia]. }
  split; [reflexivity|]. split; [exact Hl|]. split.
  - intros phase. unfold calc_phase_curve.
    rewrite Hl, length_phi_p_mean, length_mu_p_mean. reflexivity.
  - apply (wrap_phase_curve_few_mus first_sample_interpolator 0 [1 / 2]
             demo_lon demo_lat [1 / 2] single_mu_intensity single_mu_field).
    + exact single_mu_field_built.
    + simpl. lia.
Qed.

(** ** C5: the quadrature grid *)

(** C5: the mu edges run from 1 down to 0 in ten equal steps, the mu
    centres are the midpoints 0.95, ..., 0.05 and every mu width is 1/10;
    the azimuth edges run from 0 to 2 pi in ten equal steps, with centres
    at the midpoints and widths 2 pi / 10; the widths add up to 1 and to
    2 pi.  The loops visit the 100 pairs of a mu bin and an azimuth bin,
    and a cell adds its intensity times its mu centre times the weight
    mu-width * azimuth-width.  The lists are constants: neither the phase
    nor the samples enter them. *)
Theorem quadrature_grid :
  mu_p_grid_bord
  = [1; 9 / 10; 8 / 10; 7 / 10; 6 / 10; 5 / 10; 4 / 10; 3 / 10; 2 / 10; 1 / 10; 0]
  /\ mu_p_mean
     = [19 / 20; 17 / 20; 15 / 20; 13 / 20; 11 / 20;
        9 / 20; 7 / 20; 5 / 20; 3 / 20; 1 / 20]
  /\ del_mu_p = repeat (1 / 10) 10
  /\ Rsum del_mu_p = 1
  /\ phi_p_grid_bord = map (fun k => INR k * (2 * PI / 10)) (seq 0 11)
  /\ phi_p_mean = map (fun k => (INR k + 1 / 2) * (2 * PI / 10)) (seq 0 10)
  /\ del_phi_p = repeat (2 * PI / 10) 10
  /\ Rsum del_phi_p = 2 * PI
  /\ length quadrature_cells = 100%nat
  /\ (forall iphi itheta, In (iphi, itheta) quadrature_cells ->
        cell_weight iphi itheta = 1 / 10 * (2 * PI / 10))
  /\ forall phase mus f,
       calc_phase_curve phase mus f
       = foldM (fun flux_arr c =>
                  I <- I_use mus (lookup mus) f
                         (eval f (query_point (rotation phase) (fst c) (snd c)))
                         (snd c) ;;
                  ret (vadd flux_arr
                            (vscale (vscale I (nth (snd c) mu_p_mean 0))
                                    (cell_weight (fst c) (snd c)))))
               quadrature_cells (zeros (nlambda f)).
Proof.
  assert (Hmu : del_mu_p = repeat (1 / 10) 10)
    by (cbn; repeat (f_equal; try lra)).
  assert (Hphi : del_phi_p = repeat (2 * PI / 10) 10)
    by (cbn; repeat (f_equal; try lra)).
  repeat split.
  - cbn. repeat (f_equal; try lra).
  - cbn. repeat (f_equal; try lra).
  - exact Hmu.
  - rewrite Hmu. cbn. lra.
  - cbn. repeat (f_equal; try lra).
  - cbn. repeat (f_equal; try lra).
  - exact Hphi.
  - rewrite Hphi. cbn. lra.
  - intros iphi itheta Hin. unfold quadrature_cells in Hin.
    apply in_prod_iff in Hin. destruct Hin as [Hp Ht].
    apply in_seq in Hp. apply in_seq in Ht.
    rewrite length_phi_p_mean in Hp. rewrite length_mu_p_mean in Ht.
    unfold cell_weight. rewrite Hmu, Hphi.
    rewrite !nth_repeat_lt by lia. reflexivity.
  - intros phase mus f. unfold calc_phase_curve, quadrature_cells.
    rewrite <- (foldM_list_prod
                  (fun flux_arr c =>
                     I <- I_use mus (lookup mus) f
                            (eval f (query_point (rotation phase) (fst c) (snd c)))
                            (snd c) ;;
                     ret (vadd flux_arr
                               (vscale (vscale I (nth (snd c) mu_p_mean 0))
                                       (cell_weight (fst c) (snd c)))))).
    apply foldM_ext. intros flux iphi.
    apply foldM_ext. intros flux' itheta.
    apply cell_weighted.
Qed.

(** ** C6: the rotation *)

(** C6: for every phase the matrix handed to the quadrature loop is the
    realignment (x, y, z) -> (z, y, -x) times the rotation about the x axis
    by the angle -2 pi phase; written out it is
    [[0, sin a, cos a], [0, cos a, -sin a], [-1, 0, 0]], its rows and its
    columns are orthonormal, and it is the matrix [calc_phase_curve]
    applies to the direction of every cell. *)
Theorem rotation_orthonormal (phase : R) :
  let a := - (2 * PI * phase) in
  rotation phase = dot realign (rot_x a)
  /\ (forall x y z, dot realign [[x]; [y]; [z]] = [[z]; [y]; [- x]])
  /\ rotation phase = [[0; sin a; cos a]; [0; cos a; - sin a]; [-1; 0; 0]]
  /\ dot (rotation phase) (transpose (rotation phase)) = identity3
  /\ dot (transpose (rotation phase)) (rotation phase) = identity3
  /\ forall mus f,
       calc_phase_curve phase mus f
       = foldM (fun flux_arr iphi =>
                  foldM (cell (dot realign (rot_x a)) mus (lookup mus) f iphi)
                        (seq 0 10) flux_arr)
               (seq 0 10) (zeros (nlambda f)).
Proof.
  intros a.
  assert (Ha : rot_angle phase = a) by (unfold rot_angle, a; ring).
  assert (Hclosed :
            rotation phase = [[0; sin a; cos a]; [0; cos a; - sin a]; [-1; 0; 0]]).
  { unfold rotation. rewrite Ha. unfold dot, realign, rot_x.
    cbn [map hd length seq col nth dotprod]. repeat (f_equal; try ring). }
  pose proof (sin2_cos2 a) as Hsc. unfold Rsqr in Hsc.
  repeat split.
  - unfold rotation. rewrite Ha. reflexivity.
  - intros x y z. unfold dot, realign.
    cbn [map hd length seq col nth dotprod]. repeat (f_equal; try ring).
  - exact Hclosed.
  - rewrite Hclosed. unfold dot, transpose, identity3.
    cbn [map hd length seq col nth dotprod]. repeat (f_equal; try nra).
  - rewrite Hclosed. unfold dot, transpose, identity3.
    cbn [map hd length seq col nth dotprod]. repeat (f_equal; try nra).
  - intros mus f. unfold calc_phase_curve, rotation. rewrite Ha. reflexivity.
Qed.

(** ** C7: the shape of the result *)

(** C7 on a valid input with a single mu bin (coordinate grids of rank 2
    with six points each, an intensity of rank 4 for the same six points,
    one wavelength, [mus = [0.5]] of the length of the mu axis, two
    phases): the interpolant is built in the shape of the samples, and
    the entry point raises [IndexError] instead of returning the two rows
    the claim describes; it does so for every constructor and every
    non-empty list of phases once the interpolant is built and [mus] has
    fewer than two entries. *)
Theorem single_mu_returns_no_rows :
  (rank demo_lon = 2%nat /\ rank demo_lat = 2%nat
   /\ rank single_mu_intensity = 4%nat
   /\ length (data demo_lon) = length (data demo_lat)
   /\ length (data single_mu_intensity) = (length (data demo_lon) * 1 * 1)%nat
   /\ length [1 / 2] = mu_bins single_mu_intensity
   /\ strictly_increasing [1 / 2] = true)
  /\ (build_interpolator first_sample_interpolator demo_lon demo_lat
                         single_mu_intensity = inr single_mu_field
      /\ nlambda single_mu_field = wavelengths single_mu_intensity
      /\ nmu single_mu_field = mu_bins single_mu_intensity)
  /\ (forall rows,
        wrap_phase_curve first_sample_interpolator [0; 1 / 2] demo_lon demo_lat
                         [1 / 2] single_mu_intensity <> inr rows)
  /\ forall (RBF : list (R * R * R) -> ndarray -> R -> result (interpolator R))
            (phase : R) (phases : list R) (lon lat : ndarray) (mus : list R)
            (intensity : ndarray) (f : interpolator R),
       build_interpolator RBF lon lat intensity = inr f ->
       (length mus <= 1)%nat ->
       wrap_phase_curve RBF (phase :: phases) lon lat mus intensity
       = inl IndexError.
Proof.
  split; [repeat split|]. split; [repeat split|]. split.
  - intros rows.
    rewrite (wrap_phase_curve_few_mus first_sample_interpolator 0 [1 / 2]
               demo_lon demo_lat [1 / 2] single_mu_intensity single_mu_field
               single_mu_field_built) by (simpl; lia).
    discriminate.
  - intros RBF phase phases lon lat mus intensity f Eb Hn.
    exact (wrap_phase_curve_few_mus RBF phase phases lon lat mus intensity f Eb Hn).
Qed.

(** ** C8: the order of the phases *)

(** C8: when the entry point returns [rows] for [phases], it returns for
    the phases with entries [i] and [j] exchanged the rows with [i] and [j]
    exchanged: row [k] of the new result is the old row [j] for [k = i],
    the old row [i] for [k = j] and the old row [k] otherwise.  Each row
    is what [calc_phase_curve] returns for its own phase, the mus and the
    one interpolant built from the samples. *)
Theorem phase_swap_swaps_rows
        (RBF : list (R * R * R) -> ndarray -> R -> result (interpolator R))
        (phases : list R) (lon lat : ndarray) (mus : list R) (intensity : ndarray)
        (i j : nat) (rows : list (list R)) :
  (i < length phases)%nat -> (j < length phases)%nat ->
  wrap_phase_curve RBF phases lon lat mus intensity = inr rows ->
  wrap_phase_curve RBF (swap i j phases) lon lat mus intensity
  = inr (swap i j rows)
  /\ (forall k, nth_error (swap i j rows) k = nth_error rows (swap_index i j k))
  /\ exists f, build_interpolator RBF lon lat intensity = inr f
               /\ Forall2 (fun phase row => calc_phase_curve phase mus f = inr row)
                          phases rows.
Proof.
  intros Hi Hj. unfold wrap_phase_curve.
  destruct (build_interpolator RBF lon lat intensity) as [e|f]; [discriminate|].
  cbn [bind]. intros E. apply mapM_Forall2 in E. split; [|split].
  - apply mapM_Forall2. apply Forall2_swap. exact E.
  - intros k. apply nth_error_swap; rewrite <- (Forall2_length E); assumption.
  - exists f. split; [reflexivity|exact E].
Qed.

Lemma phase_swap_swaps_rows_witness :
  wrap_phase_curve first_sample_interpolator (swap 0 1 [0; 1 / 2]) demo_lon demo_lat
                   [0; 1] demo_intensity
  = inr (swap 0 1 [[1 * hemisphere_constant]; [1 * hemisphere_constant]])
  /\ (forall k,
        nth_error (swap 0 1 [[1 * hemisphere_constant]; [1 * hemisphere_constant]]) k
        = nth_error [[1 * hemisphere_constant]; [1 * hemisphere_constant]]
                    (swap_index 0 1 k))
  /\ exists f,
      build_interpolator first_sample_interpolator demo_lon demo_lat demo_intensity
      = inr f
      /\ Forall2 (fun phase row => calc_phase_curve phase [0; 1] f = inr row)
                 [0; 1 / 2]
                 [[1 * hemisphere_constant]; [1 * hemisphere_constant]].
Proof.
  apply (phase_swap_swaps_rows first_sample_interpolator [0; 1 / 2] demo_lon
                               demo_lat [0; 1] demo_intensity 0 1).
  - simpl. lia.
  - simpl. lia.
  - exact (demo_rows 0 1).
Defined.

(** ** C9: sample mus that are not strictly increasing *)

(** C9, as stated, fails: with the decreasing mus [1, 0] nothing is
    validated and no exception is raised; [calc_phase_curve] goes through
    the bracket lookup and returns a flux, and so does the entry point. *)
Lemma decreasing_mus_accepted :
  strictly_increasing [1; 0] = false
  /\ calc_phase_curve 0 [1; 0] demo_field = inr [1 * hemisphere_constant]
  /\ wrap_phase_curve first_sample_interpolator [0; 1 / 2] demo_lon demo_lat
                      [1; 0] demo_intensity
     = inr [[1 * hemisphere_constant]; [1 * hemisphere_constant]].
Proof.
  split; [|split].
  - cbn. unfold Rltb. destruct (Rlt_dec 1 0); [lra|reflexivity].
  - apply (calc_phase_curve_constant 1 0 [1; 0] demo_field);
      [exact demo_field_constant|simpl; lia|reflexivity].
  - exact (demo_rows 1 0).
Qed.

(** C9, as the code has it: mus that are not strictly increasing are not
    looked at before the lookup; once the interpolant is built with one bin
    per sample mu, the entry point returns one row per phase, each the
    flux [calc_phase_curve] computes with those mus. *)
Theorem unordered_mus_not_rejected
        (RBF : list (R * R * R) -> ndarray -> R -> result (interpolator R))
        (phases : list R) (lon lat : ndarray) (mus : list R) (intensity : ndarray)
        (f : interpolator R) :
  strictly_increasing mus = false ->
  build_interpolator RBF lon lat intensity = inr f ->
  nmu f = length mus ->
  exists rows,
    wrap_phase_curve RBF phases lon lat mus intensity = inr rows
    /\ Forall2 (fun phase row =>
                  calc_phase_curve phase mus f = inr row
                  /\ length row = nlambda f) phases rows.
Proof.
  intros Hmus Eb Hd.
  apply wrap_phase_curve_rows; try assumption.
  apply strictly_increasing_false_length. exact Hmus.
Qed.

Lemma unordered_mus_not_rejected_witness :
  exists rows,
    wrap_phase_curve first_sample_interpolator [0; 1 / 2] demo_lon demo_lat [1; 0]
                     demo_intensity = inr rows
    /\ Forall2 (fun phase row =>
                  calc_phase_curve phase [1; 0] demo_field = inr row
                  /\ length row = 1%nat) [0; 1 / 2] rows.
Proof.
  apply (unordered_mus_not_rejected first_sample_interpolator [0; 1 / 2]
           demo_lon demo_lat [1; 0] demo_intensity demo_field).
  - cbn. unfold Rltb. destruct (Rlt_dec 1 0); [lra|reflexivity].
  - exact demo_field_built.
  - reflexivity.
Defined.

(** ** C10: the lookup lists cover the quadrature loop *)

(** C10: for strictly increasing mus with at least two entries, each of
    the ten quadrature centres appends at least one entry, so [do_intp]
    and [i_intps] have at least ten entries and [do_intp[itheta]],
    [i_intps[itheta]] are defined for every [itheta] of the quadrature
    loop.  Stated for any number type in which [>] negates [<=]; the
    phase does not enter the lookup. *)
Theorem lookup_covers_quadrature_loop
        {A : Type} `{NumOrder A} (mus : list A) :
  strictly_increasing mus = true -> (2 <= length mus)%nat ->
  (forall imu, (imu < length (mu_p_mean (A:=A)))%nat ->
               (1 <= length (entries mus (nth imu mu_p_mean (of_nat 0))))%nat)
  /\ (10 <= length (do_intp (lookup mus)))%nat
  /\ (10 <= length (i_intps (lookup mus)))%nat
  /\ forall itheta, (itheta < length (mu_p_mean (A:=A)))%nat ->
       exists b i, index (do_intp (lookup mus)) itheta = inr b
                   /\ index (i_intps (lookup mus)) itheta = inr i.
Proof.
  intros _ Hn. split; [|split; [|split]].
  - intros imu _. apply entries_nonempty. exact Hn.
  - rewrite lookup_entries. unfold do_intp. cbn [fst]. rewrite length_map.
    pose proof (all_entries_length mus mu_p_mean Hn) as Hlen.
    rewrite length_mu_p_mean in Hlen. exact Hlen.
  - rewrite lookup_entries. unfold i_intps. cbn [snd]. rewrite length_map.
    pose proof (all_entries_length mus mu_p_mean Hn) as Hlen.
    rewrite length_mu_p_mean in Hlen. exact Hlen.
  - intros itheta Hi. rewrite length_mu_p_mean in Hi.
    destruct (lookup_defined mus itheta Hn Hi) as (b & i & Eb & Ei & _).
    exists b, i. split; assumption.
Qed.

Lemma lookup_covers_quadrature_loop_witness :
  (forall imu, (imu < length (mu_p_mean (A:=Q)))%nat ->
               (1 <= length (entries three_mus (nth imu mu_p_mean (of_nat 0))))%nat)
  /\ (10 <= length (do_intp (lookup three_mus)))%nat
  /\ (10 <= length (i_intps (lookup three_mus)))%nat
  /\ forall itheta, (itheta < length (mu_p_mean (A:=Q)))%nat ->
       exists b i, index (do_intp (lookup three_mus)) itheta = inr b
                   /\ index (i_intps (lookup three_mus)) itheta = inr i.
Proof.
  apply (lookup_covers_quadrature_loop three_mus).
  - reflexivity.
  - simpl. lia.
Defined.

(** * Further properties of the code *)

(** ** Failures of [calc_phase_curve] *)

(** With no sample mu or a single one the inner loop of line 97 is empty,
    both lookup lists stay empty, and the first cell of the quadrature loop
    raises [IndexError] at [do_intp[0]], for every phase and interpolant. *)
Theorem too_few_mus_raise_IndexError
        (phase : R) (mus : list R) (f : interpolator R) :
  (length mus <= 1)%nat ->
  calc_phase_curve phase mus f = inl IndexError.
Proof.
  intros Hn. unfold calc_phase_curve.
  rewrite (lookup_few_mus mus Hn), length_phi_p_mean, length_mu_p_mean.
  cbn [seq foldM]. unfold cell at 1, I_use at 1.
  cbn [do_intp fst index nth_error raise bind]. reflexivity.
Qed.

Lemma too_few_mus_raise_IndexError_witness :
  calc_phase_curve 0 [1 / 2] demo_field = inl IndexError.
Proof.
  apply too_few_mus_raise_IndexError. simpl. lia.
Defined.

(** ** The phase is periodic *)

Lemma rot_x_period (a : R) (n : nat) : rot_x (a - 2 * INR n * PI) = rot_x a.
Proof.
  unfold rot_x.
  assert (Hc : cos (a - 2 * INR n * PI) = cos a).
  { rewrite <- (cos_period (a - 2 * INR n * PI) n). f_equal. ring. }
  assert (Hs : sin (a - 2 * INR n * PI) = sin a).
  { rewrite <- (sin_period (a - 2 * INR n * PI) n). f_equal. ring. }
  rewrite Hc, Hs. reflexivity.
Qed.

Lemma rotation_period (phase : R) (n : nat) :
  rotation (phase + INR n) = rotation phase.
Proof.
  unfold rotation.
  replace (rot_angle (phase + INR n)) with (rot_angle phase - 2 * INR n * PI)
    by (unfold rot_angle; ring).
  rewrite rot_x_period. reflexivity.
Qed.

(** A whole number of turns changes nothing: the flux at phase
    [phase + n] is the flux at [phase], and the entry point returns the
    same rows when every phase is moved by [n] turns. *)
Theorem phase_curve_periodic
        (RBF : list (R * R * R) -> ndarray -> R -> result (interpolator R))
        (n : nat) (phase : R) (phases : list R) (lon lat : ndarray)
        (mus : list R) (intensity : ndarray) (f : interpolator R) :
  calc_phase_curve (phase + INR n) mus f = calc_phase_curve phase mus f
  /\ wrap_phase_curve RBF (map (fun p => p + INR n) phases) lon lat mus intensity
     = wrap_phase_curve RBF phases lon lat mus intensity.
Proof.
  assert (Hcalc : forall p g,
             calc_phase_curve (p + INR n) mus g = calc_phase_curve p mus g).
  { intros p g. unfold calc_phase_curve. rewrite rotation_period. reflexivity. }
  split; [apply Hcalc|].
  unfold wrap_phase_curve.
  destruct (build_interpolator RBF lon lat intensity) as [e|g]; [reflexivity|].
  cbn [bind]. induction phases as [|p ps IH]; simpl; [reflexivity|].
  rewrite Hcalc, IH. reflexivity.
Qed.

(** ** The rotation and the directions it is applied to *)

Lemma rotation_closed_form (phase : R) :
  rotation phase
  = [[0; sin (rot_angle phase); cos (rot_angle phase)];
     [0; cos (rot_angle phase); - sin (rot_angle phase)];
     [-1; 0; 0]].
Proof.
  unfold rotation, dot, realign, rot_x.
  cbn [map hd length seq col nth dotprod]. repeat (f_equal; try ring).
Qed.

Lemma mu_p_mean_range (itheta : nat) : 0 <= nth itheta (mu_p_mean (A:=R)) 0 <= 1.
Proof.
  rewrite mu_p_mean_values.
  do 10 (destruct itheta as [|itheta]; [simpl; lra|]).
  destruct itheta; simpl; lra.
Qed.

(** Every direction the quadrature loop asks the interpolant about lies on
    the unit sphere, whatever the phase and the cell. *)
Theorem query_points_on_unit_sphere (phase : R) (iphi itheta : nat) :
  let p := query_point (rotation phase) iphi itheta in
  fst (fst p) * fst (fst p) + snd (fst p) * snd (fst p) + snd p * snd p = 1.
Proof.
  unfold query_point. rewrite rotation_closed_form.
  unfold direction, dot, entry.
  cbn [map hd length seq col nth dotprod fst snd].
  set (m := nth itheta mu_p_mean 0). set (phi := nth iphi phi_p_mean 0).
  set (a := rot_angle phase).
  pose proof (mu_p_mean_range itheta) as Hm. fold m in Hm.
  assert (Hs : sqrt (1 - m ^ 2) * sqrt (1 - m ^ 2) = 1 - m ^ 2)
    by (apply sqrt_sqrt; nra).
  pose proof (sin2_cos2 a) as Ha. pose proof (sin2_cos2 phi) as Hp.
  unfold Rsqr in Ha, Hp.
  set (s := sqrt (1 - m ^ 2)) in *.
  replace (_ + _ + _)
    with ((sin a * sin a + cos a * cos a)
          * ((sin phi * sin phi) * (s * s) + m * m)
          + (cos phi * cos phi) * (s * s)) by ring.
  rewrite Ha, Hs.
  replace (1 * (sin phi * sin phi * (1 - m ^ 2) + m * m)
           + cos phi * cos phi * (1 - m ^ 2))
    with ((sin phi * sin phi + cos phi * cos phi) * (1 - m ^ 2) + m * m) by ring.
  rewrite Hp. ring.
Qed.

(** Rotations add up: the matrix of [phase + q] is the matrix of [phase]
    followed by the rotation about the x axis by the angle of [q]. *)
Theorem rotation_compose (phase q : R) :
  rotation (phase + q) = dot (rotation phase) (rot_x (rot_angle q)).
Proof.
  rewrite !rotation_closed_form.
  replace (rot_angle (phase + q)) with (rot_angle phase + rot_angle q)
    by (unfold rot_angle; ring).
  rewrite sin_plus, cos_plus. unfold dot, rot_x.
  cbn [map hd length seq col nth dotprod]. repeat (f_equal; try ring).
Qed.

(** ** The coordinate transformation (lines 51-55) *)

Lemma zip3_sphere_points (lo la : list R) :
  zip3 (map2 Rmult (map cos (map (fun v => v / 180 * PI) lo))
                   (map sin (map (fun v => (v + 90) / 180 * PI) la)))
       (map2 Rmult (map sin (map (fun v => v / 180 * PI) lo))
                   (map sin (map (fun v => (v + 90) / 180 * PI) la)))
       (map cos (map (fun v => (v + 90) / 180 * PI) la))
  = map (fun p => sphere_point (fst p) (snd p)) (combine lo la).
Proof.
  revert la. induction lo as [|l lo IH]; intros [|b la]; simpl; try reflexivity.
  rewrite IH. reflexivity.
Qed.

Lemma sphere_point_unit (lon lat : R) : on_unit_sphere (sphere_point lon lat).
Proof.
  unfold on_unit_sphere, sphere_point. cbn [fst snd].
  pose proof (sin2_cos2 (lon / 180 * PI)) as Hl.
  pose proof (sin2_cos2 ((lat + 90) / 180 * PI)) as Hb.
  unfold Rsqr in Hl, Hb.
  set (cl := cos (lon / 180 * PI)) in *. set (sl := sin (lon / 180 * PI)) in *.
  set (cb := cos ((lat + 90) / 180 * PI)) in *.
  set (sb := sin ((lat + 90) / 180 * PI)) in *.
  replace (_ + _ + _) with ((sl * sl + cl * cl) * (sb * sb) + cb * cb) by ring.
  rewrite Hl. lra.
Qed.

(** For as many longitudes as latitudes the transformation returns one
    direction per pair, in order, and every direction has length one. *)
Theorem cartesian_unit_points (_lon _lat : ndarray) :
  length (data _lon) = length (data _lat) ->
  cartesian _lon _lat
  = inr (map (fun p => sphere_point (fst p) (snd p))
             (combine (data _lon) (data _lat)))
  /\ length (combine (data _lon) (data _lat)) = length (data _lat)
  /\ Forall on_unit_sphere
            (map (fun p => sphere_point (fst p) (snd p))
                 (combine (data _lon) (data _lat))).
Proof.
  intros Hlen. split; [|split].
  - unfold cartesian, bmul. rewrite !length_map, Hlen, Nat.eqb_refl.
    cbn [bind ret]. unfold stack3.
    rewrite !length_map2, !length_map, Hlen, Nat.min_id, Nat.eqb_refl.
    cbn [andb]. unfold ret. f_equal. apply zip3_sphere_points.
  - rewrite length_combine, Hlen. apply Nat.min_id.
  - apply Forall_forall. intros p Hin. apply in_map_iff in Hin.
    destruct Hin as ([l b] & <- & _). apply sphere_point_unit.
Qed.

Lemma cartesian_unit_points_witness :
  cartesian demo_lon demo_lat
  = inr (map (fun p => sphere_point (fst p) (snd p))
             (combine (data demo_lon) (data demo_lat)))
  /\ length (combine (data demo_lon) (data demo_lat)) = length (data demo_lat)
  /\ Forall on_unit_sphere
            (map (fun p => sphere_point (fst p) (snd p))
                 (combine (data demo_lon) (data demo_lat))).
Proof. apply cartesian_unit_points. reflexivity. Defined.

(** A single longitude is not refused: numpy broadcasts it, and the
    transformation pairs it with every latitude. *)
Theorem single_longitude_is_broadcast (_lon _lat : ndarray) (l : R) :
  data _lon = [l] ->
  cartesian _lon _lat = inr (map (sphere_point l) (data _lat)).
Proof.
  intros Hl. unfold cartesian, bmul. rewrite Hl, !length_map.
  cbn [map length hd].
  destruct (Nat.eqb_spec 1 (length (data _lat))) as [E|E].
  - destruct (data _lat) as [|b [|b' la]]; simpl in E; try lia. reflexivity.
  - cbn [Nat.eqb bind ret]. unfold stack3.
    rewrite !length_map, Nat.eqb_refl. cbn [andb]. unfold ret. f_equal.
    clear E. induction (data _lat) as [|b la IH]; simpl; [reflexivity|].
    rewrite IH. reflexivity.
Qed.

Lemma single_longitude_is_broadcast_witness :
  cartesian one_lon four_lat = inr (map (sphere_point 0) (data four_lat)).
Proof. apply single_longitude_is_broadcast. reflexivity. Defined.

Lemma cartesian_size_mismatch (_lon _lat : ndarray) :
  length (data _lon) <> length (data _lat) -> length (data _lon) <> 1%nat ->
  cartesian _lon _lat = inl ValueError.
Proof.
  intros Hne H1. unfold cartesian, bmul. rewrite !length_map.
  destruct (Nat.eqb_spec (length (data _lon)) (length (data _lat))); [contradiction|].
  destruct (Nat.eqb_spec (length (data _lon)) 1); [contradiction|].
  destruct (Nat.eqb_spec (length (data _lat)) 1) as [E|E]; [|reflexivity].
  cbn [bind ret]. unfold stack3. rewrite !length_map, Nat.eqb_refl.
  cbn [andb].
  destruct (Nat.eqb_spec (length (data _lon)) (length (data _lat)));
    [contradiction|reflexivity].
Qed.

Lemma format_grid_data (a : ndarray) :
  rank a = 1%nat \/ rank a = 2%nat ->
  exists a', format_grid a = inr a' /\ data a' = data a /\ rank a' = 1%nat.
Proof.
  unfold rank, format_grid. destruct a as [sh dat]. cbn [shape data].
  destruct sh as [|s0 [|s1 [|s2 l]]]; simpl; intros [H|H]; try discriminate;
    eexists; repeat split.
Qed.

Lemma format_intensity_ok (a : ndarray) :
  rank a = 3%nat \/ rank a = 4%nat ->
  exists a', format_intensity a = inr a'.
Proof.
  unfold rank, format_intensity.
  destruct (shape a) as [|s0 [|s1 [|s2 [|s3 [|s4 l]]]]]; simpl; intros [H|H];
    try discriminate; eexists; reflexivity.
Qed.

(** With accepted ranks, longitudes and latitudes that differ in number
    (more than one longitude) stop the entry point with numpy's
    [ValueError] before the interpolant is built, whatever the
    constructor, the phases, the mus and the size of the intensity. *)
Theorem size_mismatch_raises_ValueError
        (RBF : list (R * R * R) -> ndarray -> R -> result (interpolator R))
        (phases : list R) (lon lat : ndarray) (mus : list R) (intensity : ndarray) :
  rank lon = 1%nat \/ rank lon = 2%nat ->
  rank lat = 1%nat \/ rank lat = 2%nat ->
  rank intensity = 3%nat \/ rank intensity = 4%nat ->
  length (data lon) <> length (data lat) -> length (data lon) <> 1%nat ->
  wrap_phase_curve RBF phases lon lat mus intensity = inl ValueError.
Proof.
  intros Hlon Hlat Hint Hne H1. unfold wrap_phase_curve, build_interpolator.
  destruct (format_grid_data lon Hlon) as (_lon & -> & Dlon & _).
  destruct (format_grid_data lat Hlat) as (_lat & -> & Dlat & _).
  destruct (format_intensity_ok intensity Hint) as (_int & ->).
  cbn [bind]. rewrite cartesian_size_mismatch by congruence. reflexivity.
Qed.

Lemma size_mismatch_raises_ValueError_witness :
  wrap_phase_curve first_sample_interpolator [0] two_lon three_lat [0; 1]
                   three_intensity = inl ValueError.
Proof.
  apply size_mismatch_raises_ValueError;
    try (left; reflexivity); simpl; lia.
Defined.

(** The axes: latitude -90 is the pole at z = 1 and latitude 90 the pole
    at z = -1, whatever the longitude; on the equator longitude 0 is the
    x axis and longitude 90 the y axis. *)
Theorem axis_convention (l : R) :
  cartesian (single l) (single (-90)) = inr [(0, 0, 1)]
  /\ cartesian (single l) (single 90) = inr [(0, 0, -1)]
  /\ cartesian (single 0) (single 0) = inr [(1, 0, 0)]
  /\ cartesian (single 90) (single 0) = inr [(0, 1, 0)].
Proof.
  assert (Hs : forall a b, cartesian (single a) (single b) = inr [sphere_point a b])
    by (intros a b; reflexivity).
  rewrite !Hs. unfold sphere_point.
  replace ((-90 + 90) / 180 * PI) with 0 by field.
  replace ((90 + 90) / 180 * PI) with PI by field.
  replace ((0 + 90) / 180 * PI) with (PI / 2) by field.
  replace (0 / 180 * PI) with 0 by field.
  replace (90 / 180 * PI) with (PI / 2) by field.
  rewrite sin_0, cos_0, sin_PI, cos_PI, sin_PI2, cos_PI2.
  repeat split; repeat f_equal; ring.
Qed.

(** The centre of the visible disk: at phase [p] the observer's axis
    (mu = 1, the direction (0, 0, 1) of the quadrature frame) is rotated
    onto the direction the transformation gives to longitude [360 p] on
    the equator. *)
Theorem sub_observer_point (phase : R) :
  cartesian (single (360 * phase)) (single 0)
  = inr [(cos (2 * PI * phase), sin (2 * PI * phase), 0)]
  /\ dot (rotation phase) [[0]; [0]; [1]]
     = [[cos (2 * PI * phase)]; [sin (2 * PI * phase)]; [0]].
Proof.
  split.
  - change (cartesian (single (360 * phase)) (single 0))
      with (inr (A:=exn) [sphere_point (360 * phase) 0]).
    unfold sphere_point.
    replace ((0 + 90) / 180 * PI) with (PI / 2) by field.
    replace (360 * phase / 180 * PI) with (2 * PI * phase) by field.
    rewrite sin_PI2, cos_PI2. repeat f_equal; ring.
  - rewrite rotation_closed_form.
    replace (rot_angle phase) with (- (2 * PI * phase))
      by (unfold rot_angle; ring).
    rewrite sin_neg, cos_neg. unfold dot.
    cbn [map hd length seq col nth dotprod]. repeat (f_equal; try ring).
Qed.

(** ** A grid and its flattened form *)

Lemma format_grid_idempotent (a a' : ndarray) :
  format_grid a = inr a' -> format_grid a' = inr a'.
Proof.
  unfold format_grid. destruct a as [sh dat]. cbn [shape data].
  destruct sh as [|s0 [|s1 [|s2 l]]]; intros E; inversion E; reflexivity.
Qed.

Lemma format_intensity_idempotent (a a' : ndarray) :
  format_intensity a = inr a' -> format_intensity a' = inr a'.
Proof.
  unfold format_intensity. destruct a as [sh dat]. cbn [shape data].
  destruct sh as [|s0 [|s1 [|s2 [|s3 [|s4 l]]]]]; intros E; inversion E;
    reflexivity.
Qed.

(** Passing the arrays already flattened (rank 1 for the coordinates,
    rank 3 for the intensity, as lines 29-48 produce them) gives the same
    result as passing the grids, exception or rows. *)
Theorem flattened_input_same_result
        (RBF : list (R * R * R) -> ndarray -> R -> result (interpolator R))
        (phases : list R) (lon lat : ndarray) (mus : list R) (intensity : ndarray)
        (_lon _lat _intensity : ndarray) :
  format_grid lon = inr _lon -> format_grid lat = inr _lat ->
  format_intensity intensity = inr _intensity ->
  wrap_phase_curve RBF phases _lon _lat mus _intensity
  = wrap_phase_curve RBF phases lon lat mus intensity.
Proof.
  intros Hlon Hlat Hint. unfold wrap_phase_curve, build_interpolator.
  rewrite (format_grid_idempotent _ _ Hlon), (format_grid_idempotent _ _ Hlat),
          (format_intensity_idempotent _ _ Hint), Hlon, Hlat, Hint.
  reflexivity.
Qed.

Lemma flattened_input_same_result_witness :
  wrap_phase_curve first_sample_interpolator [0; 1 / 2]
                   {| shape := [6%nat]; data := data demo_lon |}
                   {| shape := [6%nat]; data := data demo_lat |}
                   [0; 1]
                   {| shape := [6; 1; 2]%nat; data := data demo_intensity |}
  = wrap_phase_curve first_sample_interpolator [0; 1 / 2] demo_lon demo_lat
                     [0; 1] demo_intensity.
Proof.
  apply flattened_input_same_result; reflexivity.
Defined.

(** ** What the lookup lists always satisfy *)

Lemma flat_map_length_le {X Y : Type} (g : X -> list Y) (c : nat) (l : list X) :
  (forall x, (length (g x) <= c)%nat) ->
  (length (flat_map g l) <= length l * c)%nat.
Proof.
  intros Hg. induction l as [|x l IH]; simpl; [lia|].
  rewrite length_app. pose proof (Hg x). lia.
Qed.

Lemma entry_at_length (mus : list R) (m : R) (jmu : nat) :
  (length (entry_at mus m jmu) <= 1)%nat.
Proof.
  unfold entry_at.
  destruct (m <=? nth 0 mus (of_nat 0))%num; [simpl; lia|].
  destruct (m >? nth (length mus - 1) mus (of_nat 0))%num; [simpl; lia|].
  destruct ((m >? nth jmu mus (of_nat 0)) && (m <=? nth (jmu + 1) mus (of_nat 0)))%num;
    simpl; lia.
Qed.

(** Whatever the sample mus: the two lists grow together, hold at most
    [len(mus) - 1] entries per quadrature centre, and never store an index
    outside [mus]; a bracket entry [(True, j)] always has [j + 1] inside
    [mus] as well. *)
Theorem lookup_lists_invariant (mus : list R) :
  length (do_intp (lookup mus)) = length (i_intps (lookup mus))
  /\ (length (do_intp (lookup mus)) <= 10 * (length mus - 1))%nat
  /\ forall k b i,
       index (do_intp (lookup mus)) k = inr b ->
       index (i_intps (lookup mus)) k = inr i ->
       ((if b then i + 1 else i) < length mus)%nat.
Proof.
  rewrite lookup_entries. unfold do_intp, i_intps. cbn [fst snd].
  split; [|split].
  - rewrite !length_map. reflexivity.
  - rewrite length_map. unfold all_entries.
    pose proof (flat_map_length_le (entries mus) (length mus - 1)
                  (mu_p_mean (A:=R))) as Hle.
    rewrite length_mu_p_mean in Hle. apply Hle. intros m. unfold entries.
    pose proof (flat_map_length_le (entry_at mus m) 1 (seq 0 (length mus - 1))
                  (entry_at_length mus m)) as Hm.
    rewrite length_seq in Hm. lia.
  - intros k b i. unfold index. rewrite !nth_error_map.
    destruct (nth_error (all_entries mus mu_p_mean) k) as [[b0 i0]|] eqn:E;
      cbn [option_map fst snd]; intros Eb Ei; inversion Eb; inversion Ei; subst.
    apply nth_error_In in E. exact (all_entries_in_range _ _ _ _ E).
Qed.

(** ** Centres above the largest sample mu *)

Lemma high_prefix (mus cs : list R) (k : nat) :
  nth 0 mus 0 < nth (length mus - 1) mus 0 -> (2 <= length mus)%nat ->
  descending cs -> (k < length cs)%nat ->
  nth (length mus - 1) mus 0 < nth k cs 0 ->
  forall j, (j <= k)%nat ->
            nth_error (all_entries mus cs) j = Some (false, (length mus - 1)%nat).
Proof.
  intros Hends Hn. revert k.
  induction cs as [|c cs IH]; intros k Hd Hk Hhigh j Hj; simpl in Hk; [lia|].
  destruct (descending_below c cs Hd) as [Hbelow Hd'].
  assert (Hc : nth (length mus - 1) mus 0 < c).
  { destruct k as [|k]; [exact Hhigh|]. simpl in Hhigh.
    rewrite Forall_forall in Hbelow.
    assert (nth k cs 0 < c) by (apply Hbelow; apply nth_In; lia). lra. }
  change (all_entries mus (c :: cs)) with (entries mus c ++ all_entries mus cs).
  rewrite entries_high
    by (first [apply Rleb_gt|apply Rltb_lt]; real_zero; lra).
  destruct (Nat.lt_ge_cases j (length mus - 1)) as [Hin|Hout].
  - rewrite nth_error_app1 by (rewrite repeat_length; exact Hin).
    apply nth_error_repeat_lt. exact Hin.
  - rewrite nth_error_app2 by (rewrite repeat_length; exact Hout).
    rewrite repeat_length. destruct k as [|k]; [lia|].
    apply (IH k); [exact Hd'|lia|exact Hhigh|lia].
Qed.

(** The half of the clamping that holds on every input: for strictly
    increasing mus, a quadrature centre above the largest sample mu gets
    the last mu bin of the interpolant, unmodified, at every wavelength. *)
Theorem high_centre_reads_last_bin
        (mus : list R) (f : interpolator R) (interp : nat -> nat -> R)
        (itheta : nat) :
  strictly_increasing mus = true -> (2 <= length mus)%nat ->
  nmu f = length mus -> (itheta < 10)%nat ->
  nth (length mus - 1) mus 0 < nth itheta mu_p_mean 0 ->
  I_use mus (lookup mus) f interp itheta
  = inr (map (fun w => interp w (length mus - 1)%nat) (seq 0 (nlambda f))).
Proof.
  intros Hs Hn Hd Hi Hhigh.
  assert (Hends : nth 0 mus 0 < nth (length mus - 1) mus 0)
    by (apply strictly_increasing_lt; [exact Hs|lia]).
  assert (Hdesc : descending (mu_p_mean (A:=R)))
    by (rewrite mu_p_mean_values; simpl; repeat split; lra).
  assert (E : nth_error (all_entries mus mu_p_mean) itheta
              = Some (false, (length mus - 1)%nat)).
  { apply (high_prefix mus mu_p_mean itheta); try assumption. lia. }
  unfold I_use. rewrite lookup_entries. unfold do_intp, i_intps, index.
  cbn [fst snd]. rewrite !nth_error_map, E. cbn [option_map fst snd bind ret].
  apply column_returns. lia.
Qed.

Lemma high_centre_reads_last_bin_witness :
  I_use three_mus_real (lookup three_mus_real) three_bins_field
        (eval three_bins_field (0, 0, 0)) 0
  = inr (map (fun w => eval three_bins_field (0, 0, 0) w
                            (length three_mus_real - 1)%nat)
             (seq 0 (nlambda three_bins_field))).
Proof.
  apply (high_centre_reads_last_bin three_mus_real three_bins_field
           (eval three_bins_field (0, 0, 0)) 0).
  - exact three_mus_real_increasing.
  - simpl. lia.
  - reflexivity.
  - lia.
  - rewrite mu_p_mean_values. simpl. lra.
Defined.

(** ** The flux of an isotropic field *)

(** For an interpolant that answers [c] everywhere the flux is [c * PI]
    at every wavelength and every phase, for any order of the sample mus:
    the midpoint sums over the ten mu bins and the ten azimuth bins are
    exact for the integrand mu. *)
Theorem isotropic_flux_is_pi
        (c phase : R) (mus : list R) (f : interpolator R) :
  constant_field c f -> (2 <= length mus)%nat -> nmu f = length mus ->
  calc_phase_curve phase mus f = inr (repeat (c * PI) (nlambda f)).
Proof.
  intros Hc Hn Hd.
  rewrite (calc_phase_curve_constant c phase mus f Hc Hn Hd).
  rewrite hemisphere_constant_PI. reflexivity.
Qed.

Lemma isotropic_flux_is_pi_witness :
  calc_phase_curve (1 / 4) [0; 1] demo_field = inr (repeat (1 * PI) 1).
Proof.
  apply (isotropic_flux_is_pi 1 (1 / 4) [0; 1] demo_field).
  - exact demo_field_constant.
  - simpl. lia.
  - reflexivity.
Defined.

(** ** The flux is linear in the interpolant *)

Lemma combine_flux_step (a : R) (phi : R -> R) (sf sg If Ig : list R) :
  (forall x y, phi (a * x + y) = a * phi x + phi y) ->
  map2 Rplus (combine_flux a sf sg) (map phi (combine_flux a If Ig))
  = combine_flux a (map2 Rplus sf (map phi If)) (map2 Rplus sg (map phi Ig)).
Proof.
  intros Hphi. unfold combine_flux. revert sg If Ig.
  induction sf as [|x sf IH]; intros [|y sg] [|u If] [|v Ig]; simpl;
    try reflexivity.
  rewrite IH, Hphi. f_equal. ring.
Qed.

Lemma I_use_combine (a : R) (mus : list R) (f g : interpolator R)
      (p : R * R * R) (itheta : nat) :
  (2 <= length mus)%nat -> nmu f = length mus ->
  nmu g = nmu f -> nlambda g = nlambda f -> (itheta < 10)%nat ->
  exists If Ig,
    I_use mus (lookup mus) f (eval f p) itheta = inr If
    /\ I_use mus (lookup mus) g (eval g p) itheta = inr Ig
    /\ I_use mus (lookup mus) (combine_fields a f g)
             (eval (combine_fields a f g) p) itheta
       = inr (combine_flux a If Ig).
Proof.
  intros Hn Hd Hg HN Hi.
  destruct (lookup_defined mus itheta Hn Hi) as (b & i & Eb & Ei & Hr).
  unfold I_use. rewrite Eb. cbn [bind]. rewrite Ei. cbn [bind].
  destruct b.
  - rewrite !column_returns by (cbn [combine_fields nmu]; lia).
    cbn [bind combine_fields nlambda eval]. rewrite HN.
    destruct (index_returns mus (i + 1)) as (hi & Ehi); [lia|].
    destruct (index_returns mus i) as (lo & Elo); [lia|].
    rewrite Ehi, Elo. cbn [bind]. do 2 eexists. repeat split.
    unfold ret. f_equal. unfold combine_flux, vadd, vscale, vdiv, vsub.
    rewrite !map2_map, !map_map, !map2_map. apply map_ext. intros w.
    cbn. unfold Rdiv. ring.
  - rewrite !column_returns by (cbn [combine_fields nmu]; lia).
    cbn [combine_fields nlambda eval]. rewrite HN.
    do 2 eexists. repeat split.
    f_equal. unfold combine_flux. rewrite map2_map. reflexivity.
Qed.

Lemma foldM_combine {X : Type} (a : R)
      (stepf stepg steph : list R -> X -> result (list R)) (l : list X) :
  (forall sf sg x, In x l ->
     exists sf' sg', stepf sf x = inr sf' /\ stepg sg x = inr sg'
                     /\ steph (combine_flux a sf sg) x
                        = inr (combine_flux a sf' sg')) ->
  forall sf sg,
    exists F G, foldM stepf l sf = inr F /\ foldM stepg l sg = inr G
                /\ foldM steph l (combine_flux a sf sg) = inr (combine_flux a F G).
Proof.
  induction l as [|x l IH]; intros Hstep sf sg; simpl.
  - exists sf, sg. repeat split.
  - destruct (Hstep sf sg x (or_introl eq_refl)) as (sf' & sg' & Ef & Eg & Eh).
    rewrite Ef, Eg, Eh. cbn [bind]. apply IH.
    intros sf0 sg0 x0 Hin. apply Hstep. right. exact Hin.
Qed.

(** The flux of [a * f + g] is [a] times the flux of [f] plus the flux of
    [g], wavelength by wavelength, for interpolants of one shape; this
    holds whatever the lookup lists select, since every cell reads the
    three interpolants at the same bins. *)
Theorem flux_linear_in_field
        (a phase : R) (mus : list R) (f g : interpolator R) :
  (2 <= length mus)%nat -> nmu f = length mus ->
  nmu g = nmu f -> nlambda g = nlambda f ->
  exists F G,
    calc_phase_curve phase mus f = inr F
    /\ calc_phase_curve phase mus g = inr G
    /\ calc_phase_curve phase mus (combine_fields a f g)
       = inr (combine_flux a F G).
Proof.
  intros Hn Hd Hg HN. unfold calc_phase_curve.
  change (nlambda (combine_fields a f g)) with (nlambda f). rewrite HN.
  set (z := zeros (nlambda f)).
  assert (Hz : combine_flux a z z = z).
  { unfold z, combine_flux, zeros. rewrite map2_repeat. f_equal. cbn. ring. }
  set (loop := fun (h : interpolator R) (flux_arr : list R) (iphi : nat) =>
                 foldM (cell (rotation phase) mus (lookup mus) h iphi)
                       (seq 0 (length (mu_p_mean (A:=R)))) flux_arr).
  destruct (foldM_combine a (loop f) (loop g) (loop (combine_fields a f g))
              (seq 0 (length phi_p_mean))) with (sf := z) (sg := z)
    as (F & G & EF & EG & EH).
  - intros sf sg iphi _. unfold loop.
    apply foldM_combine. intros sf' sg' itheta Hin.
    apply in_seq in Hin. rewrite length_mu_p_mean in Hin.
    destruct (I_use_combine a mus f g (query_point (rotation phase) iphi itheta)
                itheta Hn Hd Hg HN) as (If & Ig & Ef & Eg & Eh); [lia|].
    unfold cell. rewrite Ef, Eg, Eh. cbn [bind].
    do 2 eexists. repeat split. unfold ret. f_equal.
    unfold vadd, vscale. rewrite !map_map.
    apply (combine_flux_step a
             (fun x => x * nth itheta mu_p_mean 0 * nth itheta del_mu_p 0
                       * nth iphi del_phi_p 0)).
    intros x y. ring.
  - rewrite Hz in EH. exists F, G. repeat split; assumption.
Qed.

Lemma flux_linear_in_field_witness :
  exists F G,
    calc_phase_curve 0 [0; 1] demo_field = inr F
    /\ calc_phase_curve 0 [0; 1] two_bins_field = inr G
    /\ calc_phase_curve 0 [0; 1] (combine_fields 2 demo_field two_bins_field)
       = inr (combine_flux 2 F G).
Proof.
  apply (flux_linear_in_field 2 0 [0; 1] demo_field two_bins_field).
  - simpl. lia.
  - reflexivity.
  - reflexivity.
  - reflexivity.
Defined.

(** ** A non-negative intensity gives a non-negative flux *)

Lemma del_mu_p_values : del_mu_p = repeat (1 / 10) 10.
Proof. cbn. repeat (f_equal; try lra). Qed.

Lemma del_phi_p_values : del_phi_p = repeat (2 * PI / 10) 10.
Proof. cbn. repeat (f_equal; try lra). Qed.

Lemma cell_factor_nonneg (iphi itheta : nat) :
  (iphi < 10)%nat -> (itheta < 10)%nat ->
  0 <= nth itheta mu_p_mean 0 /\ 0 <= nth itheta del_mu_p 0
  /\ 0 <= nth iphi del_phi_p 0.
Proof.
  intros Hp Ht. pose proof (mu_p_mean_range itheta) as Hm.
  pose proof PI_RGT_0 as Hpi.
  rewrite del_mu_p_values, del_phi_p_values, !nth_repeat_lt by assumption.
  repeat split; lra.
Qed.

Lemma interpolation_nonneg (I0 I1 lo hi m : R) :
  0 <= I0 -> 0 <= I1 -> lo < m <= hi ->
  0 <= I0 + (I1 - I0) / (hi - lo) * (m - lo).
Proof.
  intros H0 H1 [Hlo Hhi].
  set (t := (m - lo) / (hi - lo)).
  assert (Ht : t * (hi - lo) = m - lo) by (unfold t; field; lra).
  assert (Ht0 : 0 <= t).
  { unfold t. apply Rlt_le. apply Rdiv_lt_0_compat; lra. }
  assert (Ht1 : t <= 1).
  { apply (Rmult_le_reg_r (hi - lo)); [lra|]. rewrite Ht. lra. }
  replace (I0 + (I1 - I0) / (hi - lo) * (m - lo))
    with (I0 * (1 - t) + I1 * t) by (unfold t; field; lra).
  assert (0 <= I0 * (1 - t)) by (apply Rmult_le_pos; lra).
  assert (0 <= I1 * t) by (apply Rmult_le_pos; lra).
  lra.
Qed.

Lemma I_use_nonneg (mus : list R) (f : interpolator R)
      (interp : nat -> nat -> R) (itheta : nat) :
  strictly_increasing mus = true -> (2 <= length mus)%nat ->
  nmu f = length mus ->
  length mus = 2%nat \/ nth 0 mu_p_mean 0 <= nth (length mus - 1) mus 0 ->
  (itheta < 10)%nat ->
  (forall w k, 0 <= interp w k) ->
  exists I, I_use mus (lookup mus) f interp itheta = inr I
            /\ Forall (fun x => 0 <= x) I.
Proof.
  intros Hs Hn Hd Hhigh Hi Hpos.
  destruct (mu_band_step_aligned mus f interp itheta Hs Hn Hd Hhigh Hi)
    as (Hlow & Hup & Hin).
  set (m := nth itheta mu_p_mean 0) in *.
  assert (Hcol : forall k, (k < nmu f)%nat ->
                           exists I, column f interp k = inr I
                                     /\ Forall (fun x => 0 <= x) I).
  { intros k Hk. rewrite column_returns by exact Hk. eexists. split; [reflexivity|].
    apply Forall_forall. intros x Hx. apply in_map_iff in Hx.
    destruct Hx as (w & <- & _). apply Hpos. }
  destruct (Rle_dec m (nth 0 mus 0)) as [Hl|Hnl].
  { rewrite (Hlow Hl). apply Hcol. lia. }
  destruct (Rlt_dec (nth (length mus - 1) mus 0) m) as [Hu|Hnu].
  { rewrite (Hup Hu). apply Hcol. lia. }
  destruct (bracket_exists mus m (length mus - 1)) as (j & Hj & Ha & Hb).
  { apply Rleb_gt. real_zero. lra. }
  { apply Rleb_le. real_zero. lra. }
  apply Rltb_lt in Ha. apply Rleb_le in Hb. real_zero.
  rewrite (Hin j) by (try lia; lra). eexists. split; [reflexivity|].
  apply Forall_forall. intros x Hx. apply in_map_iff in Hx.
  destruct Hx as (w & <- & _).
  apply interpolation_nonneg; [apply Hpos|apply Hpos|lra].
Qed.

Lemma Forall_nonneg_step (flux I : list R) (c : R) :
  Forall (fun x => 0 <= x) flux -> Forall (fun x => 0 <= x) I -> 0 <= c ->
  Forall (fun x => 0 <= x) (map2 Rplus flux (map (fun x => x * c) I)).
Proof.
  intros Hf. revert I. induction Hf as [|x flux Hx Hf IH]; intros I HI Hc;
    [constructor|].
  destruct HI as [|y I Hy HI]; [constructor|]. simpl. constructor.
  - assert (0 <= y * c) by (apply Rmult_le_pos; assumption). lra.
  - apply IH; assumption.
Qed.

(** On the inputs where the lookup lists are aligned (strictly increasing
    mus with no quadrature centre above the largest, or exactly two mus),
    an interpolant that is nowhere negative gives a flux that is nowhere
    negative: inside a bracket the step takes a weighted mean of two bins,
    and every cell factor is non-negative. *)
Theorem flux_nonnegative (phase : R) (mus : list R) (f : interpolator R) :
  strictly_increasing mus = true -> (2 <= length mus)%nat ->
  nmu f = length mus ->
  length mus = 2%nat \/ nth 0 mu_p_mean 0 <= nth (length mus - 1) mus 0 ->
  (forall p w k, 0 <= eval f p w k) ->
  exists flux_arr, calc_phase_curve phase mus f = inr flux_arr
                   /\ Forall (fun x => 0 <= x) flux_arr.
Proof.
  intros Hs Hn Hd Hhigh Hpos. unfold calc_phase_curve.
  apply (foldM_invariant (fun flux => Forall (fun x => 0 <= x) flux)).
  2:{ unfold zeros. apply Forall_forall. intros x Hx.
      apply repeat_spec in Hx. subst. cbn. lra. }
  intros flux iphi Hp Hflux. apply in_seq in Hp. rewrite length_phi_p_mean in Hp.
  apply (foldM_invariant (fun flux => Forall (fun x => 0 <= x) flux));
    [|exact Hflux].
  intros flux' itheta Ht Hflux'. apply in_seq in Ht.
  rewrite length_mu_p_mean in Ht.
  destruct (I_use_nonneg mus f (eval f (query_point (rotation phase) iphi itheta))
              itheta Hs Hn Hd Hhigh) as (I & EI & HI); [lia|intros; apply Hpos|].
  destruct (cell_factor_nonneg iphi itheta) as (Hm & Hdm & Hdp); [lia|lia|].
  unfold cell. rewrite EI. cbn [bind]. eexists. split; [reflexivity|].
  unfold vadd, vscale. rewrite !map_map.
  set (c := nth itheta mu_p_mean 0 * nth itheta del_mu_p 0 * nth iphi del_phi_p 0).
  assert (Hc : 0 <= c)
    by (apply Rmult_le_pos; [apply Rmult_le_pos|]; assumption).
  rewrite (map_ext _ (fun x => x * c)) by (intros x; unfold c; cbn; ring).
  apply Forall_nonneg_step; assumption.
Qed.

Lemma flux_nonnegative_witness :
  exists flux_arr, calc_phase_curve (1 / 4) [0; 1] two_bins_field = inr flux_arr
                   /\ Forall (fun x => 0 <= x) flux_arr.
Proof.
  apply (flux_nonnegative (1 / 4) [0; 1] two_bins_field).
  - cbn [strictly_increasing]. rewrite (proj2 (Rltb_lt 0 1)) by lra. reflexivity.
  - simpl. lia.
  - reflexivity.
  - left. reflexivity.
  - intros p w k. simpl. apply pos_INR.
Defined.

(** ** The mu-band step on aligned inputs *)

Lemma two_mus_increasing : strictly_increasing [0; 1] = true.
Proof.
  cbn [strictly_increasing]. rewrite (proj2 (Rltb_lt 0 1)) by lra. reflexivity.
Qed.

(** For strictly increasing mus with no quadrature centre above the
    largest sample mu (or with exactly two sample mus), a centre at or
    below the smallest sample mu gets the first mu bin unmodified, and a
    centre inside the bracket (mus[j], mus[j+1]] gets the linear
    interpolation between the bins [j] and [j + 1]. *)
Theorem aligned_step_clamps_and_interpolates
        (mus : list R) (f : interpolator R) (interp : nat -> nat -> R)
        (itheta : nat) :
  strictly_increasing mus = true -> (2 <= length mus)%nat ->
  nmu f = length mus ->
  length mus = 2%nat \/ nth 0 mu_p_mean 0 <= nth (length mus - 1) mus 0 ->
  (itheta < 10)%nat ->
  (nth itheta mu_p_mean 0 <= nth 0 mus 0 ->
   I_use mus (lookup mus) f interp itheta
   = inr (map (fun w => interp w 0%nat) (seq 0 (nlambda f))))
  /\ (forall j, (j + 1 < length mus)%nat ->
        nth j mus 0 < nth itheta mu_p_mean 0 <= nth (j + 1) mus 0 ->
        I_use mus (lookup mus) f interp itheta
        = inr (map (fun w =>
                      interp w j
                      + (interp w (j + 1)%nat - interp w j)
                        / (nth (j + 1) mus 0 - nth j mus 0)
                        * (nth itheta mu_p_mean 0 - nth j mus 0))
                   (seq 0 (nlambda f)))).
Proof.
  intros Hs Hn Hd Hhigh Hi.
  destruct (mu_band_step_aligned mus f interp itheta Hs Hn Hd Hhigh Hi)
    as (Hlow & _ & Hin).
  split.
  - intros Hm. rewrite (Hlow Hm). apply column_returns. lia.
  - exact Hin.
Qed.

Lemma aligned_step_clamps_and_interpolates_witness :
  (nth 3 mu_p_mean 0 <= nth 0 [0; 1] 0 ->
   I_use [0; 1] (lookup [0; 1]) two_bins_field (eval two_bins_field (0, 0, 0)) 3
   = inr (map (fun w => eval two_bins_field (0, 0, 0) w 0%nat)
              (seq 0 (nlambda two_bins_field))))
  /\ (forall j, (j + 1 < length [0; 1])%nat ->
        nth j [0; 1] 0 < nth 3 mu_p_mean 0 <= nth (j + 1) [0; 1] 0 ->
        I_use [0; 1] (lookup [0; 1]) two_bins_field
              (eval two_bins_field (0, 0, 0)) 3
        = inr (map (fun w =>
                      eval two_bins_field (0, 0, 0) w j
                      + (eval two_bins_field (0, 0, 0) w (j + 1)%nat
                         - eval two_bins_field (0, 0, 0) w j)
                        / (nth (j + 1) [0; 1] 0 - nth j [0; 1] 0)
                        * (nth 3 mu_p_mean 0 - nth j [0; 1] 0))
                   (seq 0 (nlambda two_bins_field)))).
Proof.
  apply (aligned_step_clamps_and_interpolates [0; 1] two_bins_field
           (eval two_bins_field (0, 0, 0)) 3).
  - exact two_mus_increasing.
  - simpl. lia.
  - reflexivity.
  - left. reflexivity.
  - lia.
Defined.

Lemma linear_intensity_reproduced_witness :
  I_use [0; 1] (lookup [0; 1]) two_bins_field
        (fun w k => 2 + 3 * nth k [0; 1] 0) 3
  = inr (map (fun w => 2 + 3 * nth 3 mu_p_mean 0)
             (seq 0 (nlambda two_bins_field))).
Proof.
  apply (linear_intensity_reproduced [0; 1] two_bins_field
           (fun _ => 2) (fun _ => 3) 3 0).
  - exact two_mus_increasing.
  - simpl. lia.
  - reflexivity.
  - left. reflexivity.
  - lia.
  - simpl. lia.
  - rewrite mu_p_mean_values. simpl. lra.
Defined.

(** ** The entry point with at least two sample mus *)

(** When every entry of the intensity is the scalar [c] and the input is
    accepted (the interpolant is built, there is one sample mu per mu bin
    and at least two of them), every phase gets the same row, each
    of whose entries, one per wavelength, is [c] times the sum over the
    cells of mu-centre * mu-width * azimuth-width.  The constructor is
    scipy's; it is asked to keep the shape of the samples and to reproduce
    a constant. *)
Theorem isotropic_flux
        (RBF : list (R * R * R) -> ndarray -> R -> result (interpolator R))
        (phases : list R) (lon lat : ndarray) (mus : list R) (intensity : ndarray)
        (c : R) (f : interpolator R) :
  keeps_shape RBF -> reproduces_constants RBF ->
  Forall (eq c) (data intensity) ->
  build_interpolator RBF lon lat intensity = inr f ->
  length mus = mu_bins intensity -> (2 <= length mus)%nat ->
  wrap_phase_curve RBF phases lon lat mus intensity
  = inr (map (fun _ => repeat (c * hemisphere_constant) (wavelengths intensity))
             phases).
Proof.
  intros Hshape Hconst Hall Eb Hmus Hn.
  destruct (build_interpolator_inv RBF lon lat intensity f Eb) as (points & M & E).
  destruct (Hshape _ _ _ _ _ _ _ E) as [HN HD].
  pose proof (Hconst _ _ _ _ c E Hall) as Hc.
  unfold wrap_phase_curve. rewrite Eb. cbn [bind].
  apply mapM_map. intros phase. rewrite <- HN.
  apply calc_phase_curve_constant; [assumption|assumption|congruence].
Qed.

Lemma isotropic_flux_witness :
  wrap_phase_curve first_sample_interpolator [0; 1 / 2] demo_lon demo_lat [0; 1]
                   demo_intensity
  = inr [[1 * hemisphere_constant]; [1 * hemisphere_constant]].
Proof.
  apply (isotropic_flux first_sample_interpolator [0; 1 / 2] demo_lon demo_lat
                        [0; 1] demo_intensity 1 demo_field).
  - exact first_sample_keeps_shape.
  - exact first_sample_reproduces_constants.
  - simpl. repeat constructor.
  - exact demo_field_built.
  - reflexivity.
  - simpl. lia.
Defined.

(** On an accepted input (the interpolant [f] is built, [mus] has one
    entry per mu bin and at least two), [wrap_phase_curve] returns a list
    of rows with one row per phase, in the order of the phases (row [i] is
    what [calc_phase_curve] returns for phase [i]), each row having as
    many entries as the intensity has wavelengths. *)
Theorem phase_curve_shape
        (RBF : list (R * R * R) -> ndarray -> R -> result (interpolator R))
        (phases : list R) (lon lat : ndarray) (mus : list R) (intensity : ndarray)
        (f : interpolator R) :
  keeps_shape RBF ->
  build_interpolator RBF lon lat intensity = inr f ->
  length mus = mu_bins intensity -> (2 <= length mus)%nat ->
  exists rows,
    wrap_phase_curve RBF phases lon lat mus intensity = inr rows
    /\ length rows = length phases
    /\ Forall2 (fun phase row =>
                  calc_phase_curve phase mus f = inr row
                  /\ length row = wavelengths intensity) phases rows.
Proof.
  intros Hshape Eb Hmus Hn.
  destruct (build_interpolator_inv RBF lon lat intensity f Eb) as (points & M & E).
  destruct (Hshape _ _ _ _ _ _ _ E) as [HN HD].
  destruct (wrap_phase_curve_rows RBF phases lon lat mus intensity f Eb Hn)
    as (rows & Ew & HF); [congruence|].
  exists rows. split; [exact Ew|]. split.
  - symmetry. exact (Forall2_length HF).
  - rewrite <- HN. exact HF.
Qed.

Lemma phase_curve_shape_witness :
  exists rows,
    wrap_phase_curve first_sample_interpolator [0; 1 / 2] demo_lon demo_lat [0; 1]
                     demo_intensity = inr rows
    /\ length rows = 2%nat
    /\ Forall2 (fun phase row =>
                  calc_phase_curve phase [0; 1] demo_field = inr row
                  /\ length row = 1%nat) [0; 1 / 2] rows.
Proof.
  apply (phase_curve_shape first_sample_interpolator [0; 1 / 2] demo_lon demo_lat
                           [0; 1] demo_intensity demo_field).
  - exact first_sample_keeps_shape.
  - exact demo_field_built.
  - reflexivity.
  - simpl. lia.
Defined.
